(** * The executive I/O completion object (base/ntos/io/iomgr/complete.c)

    A shallow embedding of the completion-port services of the Windows
    Research Kernel: the tiered mini-packet allocator inlined in
    [IoSetIoCompletion], [IopFreeMiniPacket], the services
    [NtQueryIoCompletion], [NtSetIoCompletion], [NtRemoveIoCompletion] and
    the object delete routine [IopDeleteIoCompletion].

    Pointers are integers ([Z], [NULL] is 0), kernel memory is a finite map
    from addresses to objects, the SLIST of a lookaside list is the list of
    the addresses it holds (head first), ULONG counters wrap at 2^32, and
    every call into a routine that lives outside complete.c is recorded in
    a trace, in program order. *)

From Stdlib Require Import ZArith List Lia Bool.
From stdpp Require Import base option list gmap.
Import ListNotations.
Local Open Scope Z_scope.

(** ** Scalars *)

Definition NTSTATUS := Z.
Definition PVOID := Z.

Definition NULL : PVOID := 0.

Definition STATUS_SUCCESS : NTSTATUS := 0.
Definition STATUS_USER_APC : NTSTATUS := 0xC0.
Definition STATUS_TIMEOUT : NTSTATUS := 0x102.
(* Error statuses are negative LONGs; they are written as in ntstatus.h. *)
Definition STATUS_INVALID_INFO_CLASS : NTSTATUS := 0xC0000003 - 2 ^ 32.
Definition STATUS_INFO_LENGTH_MISMATCH : NTSTATUS := 0xC0000004 - 2 ^ 32.
Definition STATUS_ACCESS_VIOLATION : NTSTATUS := 0xC0000005 - 2 ^ 32.
Definition STATUS_INVALID_HANDLE : NTSTATUS := 0xC0000008 - 2 ^ 32.
Definition STATUS_INSUFFICIENT_RESOURCES : NTSTATUS := 0xC000009A - 2 ^ 32.

Definition NT_SUCCESS (Status : NTSTATUS) : bool := 0 <=? Status.

(** [x += 1] on a ULONG. *)
Definition ulong_inc (x : Z) : Z := (x + 1) mod 2 ^ 32.

(** ** Completion packets and request packets *)

Inductive PACKET_TYPE :=
| IopCompletionPacketIrp
| IopCompletionPacketMini
| IopCompletionPacketQuota.

#[global] Instance PACKET_TYPE_eq_dec : EqDecision PACKET_TYPE.
Proof. solve_decision. Defined.

Record IOP_MINI_COMPLETION_PACKET := {
  PacketType : PACKET_TYPE;
  KeyContext : PVOID;
  ApcContext : PVOID;
  IoStatus : NTSTATUS;
  IoStatusInformation : Z
}.

Record IO_STATUS_BLOCK := {
  Status : NTSTATUS;
  Information : Z
}.

(** The fields of an IRP that complete.c reads. *)
Record IRP := {
  UserApcContext : PVOID;
  CompletionKey : PVOID;
  IrpIoStatus : IO_STATUS_BLOCK
}.

(** What lives at the address of a queue entry.  The list entry of an IRP
    and the list entry of a mini packet overlay each other, and so do the
    packet type words; the packet type of an IRP is
    [IopCompletionPacketIrp]. *)
Inductive OBJECT :=
| ObjIrp (irp : IRP)
| ObjMini (pkt : IOP_MINI_COMPLETION_PACKET).

(** [MiniPacket->PacketType], read through the overlay. *)
Definition ObjPacketType (o : OBJECT) : PACKET_TYPE :=
  match o with
  | ObjIrp _ => IopCompletionPacketIrp
  | ObjMini pkt => PacketType pkt
  end.

(** ** Lookaside lists *)

Record GENERAL_LOOKASIDE := {
  ListHead : list PVOID;
  Depth : Z;
  TotalAllocates : Z;
  AllocateMisses : Z;
  TotalFrees : Z;
  FreeMisses : Z
}.

Definition set_ListHead (l : list PVOID) (la : GENERAL_LOOKASIDE) :=
  {| ListHead := l; Depth := Depth la; TotalAllocates := TotalAllocates la;
     AllocateMisses := AllocateMisses la; TotalFrees := TotalFrees la;
     FreeMisses := FreeMisses la |}.

Definition inc_TotalAllocates (la : GENERAL_LOOKASIDE) :=
  {| ListHead := ListHead la; Depth := Depth la;
     TotalAllocates := ulong_inc (TotalAllocates la);
     AllocateMisses := AllocateMisses la; TotalFrees := TotalFrees la;
     FreeMisses := FreeMisses la |}.

Definition inc_AllocateMisses (la : GENERAL_LOOKASIDE) :=
  {| ListHead := ListHead la; Depth := Depth la;
     TotalAllocates := TotalAllocates la;
     AllocateMisses := ulong_inc (AllocateMisses la);
     TotalFrees := TotalFrees la; FreeMisses := FreeMisses la |}.

Definition inc_TotalFrees (la : GENERAL_LOOKASIDE) :=
  {| ListHead := ListHead la; Depth := Depth la;
     TotalAllocates := TotalAllocates la;
     AllocateMisses := AllocateMisses la;
     TotalFrees := ulong_inc (TotalFrees la); FreeMisses := FreeMisses la |}.

Definition inc_FreeMisses (la : GENERAL_LOOKASIDE) :=
  {| ListHead := ListHead la; Depth := Depth la;
     TotalAllocates := TotalAllocates la;
     AllocateMisses := AllocateMisses la; TotalFrees := TotalFrees la;
     FreeMisses := ulong_inc (FreeMisses la) |}.

(** [InterlockedPopEntrySList]: the entry popped ([NULL] on an empty
    list) and the list that remains. *)
Definition InterlockedPopEntrySList (l : list PVOID) : PVOID * list PVOID :=
  match l with
  | [] => (NULL, [])
  | p :: rest => (p, rest)
  end.

Definition InterlockedPushEntrySList (l : list PVOID) (p : PVOID)
  : list PVOID := p :: l.

Definition ExQueryDepthSList (l : list PVOID) : Z := Z.of_nat (length l).

(** ** The kernel queue object

    Modelled from the spec: ke/queueobj.c ([KeInitializeQueue],
    [KeInsertQueue], [KeRemoveQueue], [KeReadStateQueue],
    [KeRundownQueue]) is not part of complete.c.  The queue is the FIFO
    list of pending entries, the configured concurrency limit, the threads
    that are active against the queue, the threads blocked in a remove, and
    the entries an insert handed to a woken waiter. *)

Definition THREAD := nat.

Record KQUEUE := {
  EntryListHead : list PVOID;
  MaximumCount : nat;
  ActiveThreads : list THREAD;
  WaitListHead : list THREAD;
  Handed : list (THREAD * PVOID)
}.

Definition CurrentCount (q : KQUEUE) : nat := length (ActiveThreads q).

(** Modelled from the spec: KeInitializeQueue; a limit that is not
    specified defaults to the number of processing units. *)
Definition KeInitializeQueue (NumberProcessors Count : nat) : KQUEUE :=
  {| EntryListHead := [];
     MaximumCount := if Nat.eqb Count 0 then NumberProcessors else Count;
     ActiveThreads := []; WaitListHead := []; Handed := [] |}.

(** Modelled from the spec: KeInsertQueue always succeeds; when a waiter
    is blocked and the ceiling admits another active thread the first
    waiter is woken and handed the entry, otherwise the entry is appended
    to the tail. *)
Definition KeInsertQueue (q : KQUEUE) (Entry : PVOID) : KQUEUE :=
  match WaitListHead q with
  | t :: waiters =>
      if Nat.ltb (CurrentCount q) (MaximumCount q) then
        {| EntryListHead := EntryListHead q; MaximumCount := MaximumCount q;
           ActiveThreads := ActiveThreads q ++ [t]; WaitListHead := waiters;
           Handed := Handed q ++ [(t, Entry)] |}
      else
        {| EntryListHead := EntryListHead q ++ [Entry];
           MaximumCount := MaximumCount q; ActiveThreads := ActiveThreads q;
           WaitListHead := WaitListHead q; Handed := Handed q |}
  | [] =>
      {| EntryListHead := EntryListHead q ++ [Entry];
         MaximumCount := MaximumCount q; ActiveThreads := ActiveThreads q;
         WaitListHead := WaitListHead q; Handed := Handed q |}
  end.

Definition remove_thread (t : THREAD) (l : list THREAD) : list THREAD :=
  filter (fun u => u <> t) l.

(** Modelled from the spec: the arrival of a thread in KeRemoveQueue
    (spec 4.2).  A thread that was active stops being active when it calls
    remove again; then, if an entry is pending and the ceiling admits the
    caller (the active count is under the limit), the head entry is popped
    and returned at once, and otherwise the thread queues as a waiter, also
    when entries are pending. *)
Definition KeRemoveQueue_arrive (q : KQUEUE) (t : THREAD)
  : option PVOID * KQUEUE :=
  let active := remove_thread t (ActiveThreads q) in
  match EntryListHead q with
  | e :: rest =>
      if Nat.ltb (length active) (MaximumCount q) then
        (Some e,
         {| EntryListHead := rest; MaximumCount := MaximumCount q;
            ActiveThreads := active ++ [t]; WaitListHead := WaitListHead q;
            Handed := Handed q |})
      else
        (None,
         {| EntryListHead := EntryListHead q; MaximumCount := MaximumCount q;
            ActiveThreads := active; WaitListHead := WaitListHead q ++ [t];
            Handed := Handed q |})
  | [] =>
      (None,
       {| EntryListHead := []; MaximumCount := MaximumCount q;
          ActiveThreads := active; WaitListHead := WaitListHead q ++ [t];
          Handed := Handed q |})
  end.

(** How a wait that had to block ends without an entry. *)
Inductive WAIT_OUTCOME :=
| WaitTimeout
| WaitUserApc.

Definition wait_status (o : WAIT_OUTCOME) : NTSTATUS :=
  match o with
  | WaitTimeout => STATUS_TIMEOUT
  | WaitUserApc => STATUS_USER_APC
  end.

(** Modelled from the spec: a waiter that times out or is cancelled
    leaves the wait list; the pending entries are not touched. *)
Definition KeRemoveQueue_abandon (q : KQUEUE) (t : THREAD) : KQUEUE :=
  {| EntryListHead := EntryListHead q; MaximumCount := MaximumCount q;
     ActiveThreads := ActiveThreads q;
     WaitListHead := remove_thread t (WaitListHead q); Handed := Handed q |}.

(** Modelled from the spec: the entry that an insert handed to the
    waiter [t] when it woke it (spec 4.2, Insert: the waiter woken is
    handed the entry directly), if there is one. *)
Fixpoint handed_entry (t : THREAD) (handed : list (THREAD * PVOID))
  : option PVOID :=
  match handed with
  | [] => None
  | (u, Entry) :: rest =>
      if decide (u = t) then Some Entry else handed_entry t rest
  end.

(** Modelled from the spec: the three ends of a wait in KeRemoveQueue
    (spec 4.2, Remove): (a) an entry became available and the ceiling
    admitted the waiter, (b) the timeout elapsed, (c) the wait was
    cancelled. *)
Inductive WAIT_END :=
| WaitSatisfied
| WaitEnded (o : WAIT_OUTCOME).

(** Modelled from the spec: what the timeout allows.  [CapturedTimeout]
    is [None] when no timeout was given: the wait is indefinite and end
    (b) does not occur.  A timeout of zero polls: the call returns at once
    with STATUS_TIMEOUT, so ends (a) and (c) do not occur. *)
Definition wait_end_possible (CapturedTimeout : option Z) (e : WAIT_END)
  : bool :=
  match e with
  | WaitEnded WaitTimeout => bool_decide (is_Some CapturedTimeout)
  | WaitEnded WaitUserApc | WaitSatisfied =>
      bool_decide (CapturedTimeout <> Some 0)
  end.

(** Modelled from the spec: the return of a call of KeRemoveQueue that
    had to wait.  With end (a) the waiter returns the entry that the insert
    which woke it handed to it; it was made active by that insert.  With
    ends (b) and (c) the thread, still a waiter, leaves the wait list with
    STATUS_TIMEOUT or STATUS_USER_APC.  The result is [None] when the wait
    cannot end that way in [q]. *)
Definition KeRemoveQueue_resume (q : KQUEUE) (CapturedTimeout : option Z)
  (t : THREAD) (e : WAIT_END) : option (PVOID * KQUEUE) :=
  if wait_end_possible CapturedTimeout e then
    match e with
    | WaitSatisfied =>
        Entry ← handed_entry t (Handed q);
        Some (Entry,
              {| EntryListHead := EntryListHead q;
                 MaximumCount := MaximumCount q;
                 ActiveThreads := ActiveThreads q;
                 WaitListHead := WaitListHead q;
                 Handed := filter (fun h => h.1 <> t) (Handed q) |})
    | WaitEnded o =>
        if decide (t ∈ WaitListHead q) then
          Some (wait_status o, KeRemoveQueue_abandon q t)
        else None
    end
  else None.

(** Modelled from the spec: KeRemoveQueue run to its return in one step,
    for a call that is served on arrival, or that has to wait and whose
    wait ends with (b) or (c) before any other call is made on the queue:
    [KeRemoveQueue_arrive] followed by [KeRemoveQueue_resume] with
    [WaitEnded o].  [o] is the end that the timeout given and the delivery
    of user APCs produce.  A wait that ends with (a) spans the insert that
    serves it, and is the arrival, the insert and [KeRemoveQueue_resume]
    with [WaitSatisfied], one after the other.  The value returned is the
    address of a list entry, STATUS_USER_APC or STATUS_TIMEOUT. *)
Definition KeRemoveQueue (q : KQUEUE) (t : THREAD) (o : WAIT_OUTCOME)
  : PVOID * KQUEUE :=
  match KeRemoveQueue_arrive q t with
  | (Some e, q') => (e, q')
  | (None, q') => (wait_status o, KeRemoveQueue_abandon q' t)
  end.

(** Modelled from the spec: KeReadStateQueue is the number of pending
    entries. *)
Definition KeReadStateQueue (q : KQUEUE) : Z :=
  Z.of_nat (length (EntryListHead q)).

(** Modelled from the spec: KeRundownQueue returns the entries that were
    pending, in order, and leaves the queue without entries and without
    waiters. *)
Definition KeRundownQueue (q : KQUEUE) : list PVOID * KQUEUE :=
  (EntryListHead q,
   {| EntryListHead := []; MaximumCount := MaximumCount q;
      ActiveThreads := []; WaitListHead := []; Handed := Handed q |}).

(** ** The machine state seen by complete.c *)

(** The caller's arguments that are addresses in caller memory. *)
Inductive USER_ARG :=
| ArgApcContext
| ArgKeyContext
| ArgIoStatusBlock
| ArgTimeout
| ArgIoCompletionInformation
| ArgReturnLength.

#[global] Instance USER_ARG_eq_dec : EqDecision USER_ARG.
Proof. solve_decision. Defined.

(** Calls that leave complete.c, and stores to caller memory. *)
Inductive EVENT :=
| EvExAllocatePoolWithQuotaTag (result : PVOID)
| EvExAllocatePoolWithQuotaTagRaised
| EvExAllocatePoolWithTagPriority (result : PVOID)
| EvExReturnPoolQuota (p : PVOID)
| EvExFreePool (p : PVOID)
| EvIoFreeIrp (p : PVOID)
| EvKeInsertQueue (entry : PVOID)
| EvObReferenceObjectByHandle
| EvObDereferenceObject
| EvWrite (target : USER_ARG) (value : list Z).

#[global] Instance EVENT_eq_dec : EqDecision EVENT.
Proof. solve_decision. Defined.

(** The lookaside pair of the current processor
    ([Prcb->PPLookasideList[LookasideCompletionList]]), the queue of the
    I/O completion object the services are called on, kernel memory, and
    the trace (oldest event first). *)
Record WORLD := {
  LookasideP : GENERAL_LOOKASIDE;
  LookasideL : GENERAL_LOOKASIDE;
  Queue : KQUEUE;
  Memory : gmap Z OBJECT;
  Trace : list EVENT
}.

Definition set_P (la : GENERAL_LOOKASIDE) (w : WORLD) :=
  {| LookasideP := la; LookasideL := LookasideL w; Queue := Queue w;
     Memory := Memory w; Trace := Trace w |}.
Definition set_L (la : GENERAL_LOOKASIDE) (w : WORLD) :=
  {| LookasideP := LookasideP w; LookasideL := la; Queue := Queue w;
     Memory := Memory w; Trace := Trace w |}.
Definition set_Queue (q : KQUEUE) (w : WORLD) :=
  {| LookasideP := LookasideP w; LookasideL := LookasideL w; Queue := q;
     Memory := Memory w; Trace := Trace w |}.
Definition set_Memory (m : gmap Z OBJECT) (w : WORLD) :=
  {| LookasideP := LookasideP w; LookasideL := LookasideL w; Queue := Queue w;
     Memory := m; Trace := Trace w |}.
Definition emit (e : EVENT) (w : WORLD) :=
  {| LookasideP := LookasideP w; LookasideL := LookasideL w; Queue := Queue w;
     Memory := Memory w; Trace := Trace w ++ [e] |}.

(** Reading a field through a pointer that does not address a live object
    has no defined result: such a run is [None]. *)
Definition read_PacketType (w : WORLD) (p : PVOID) : option PACKET_TYPE :=
  ObjPacketType <$> Memory w !! p.

(** [ExReturnPoolQuota(MiniPacket)] under its guard. *)
Definition return_quota_if_charged (ty : PACKET_TYPE) (p : PVOID) (w : WORLD) :=
  if decide (ty = IopCompletionPacketQuota) then emit (EvExReturnPoolQuota p) w
  else w.

(** ** IopFreeMiniPacket *)

Definition IopFreeMiniPacket (MiniPacket : PVOID) (w : WORLD) : option WORLD :=
  let w := set_P (inc_TotalFrees (LookasideP w)) w in
  if Depth (LookasideP w) <=? ExQueryDepthSList (ListHead (LookasideP w)) then
    let w := set_P (inc_FreeMisses (LookasideP w)) w in
    let w := set_L (inc_TotalFrees (LookasideL w)) w in
    if Depth (LookasideL w) <=? ExQueryDepthSList (ListHead (LookasideL w)) then
      let w := set_L (inc_FreeMisses (LookasideL w)) w in
      Some (emit (EvExFreePool MiniPacket)
              (set_Memory (delete MiniPacket (Memory w)) w))
    else
      ty ← read_PacketType w MiniPacket;
      let w := return_quota_if_charged ty MiniPacket w in
      Some (set_L (set_ListHead
              (InterlockedPushEntrySList (ListHead (LookasideL w)) MiniPacket)
              (LookasideL w)) w)
  else
    ty ← read_PacketType w MiniPacket;
    let w := return_quota_if_charged ty MiniPacket w in
    Some (set_P (set_ListHead
            (InterlockedPushEntrySList (ListHead (LookasideP w)) MiniPacket)
            (LookasideP w)) w).

(** ** IoSetIoCompletion *)

(** What the general pool answers when it is asked for a block. *)
Inductive POOL_OUTCOME :=
| PoolBlock (p : PVOID)
| PoolExhausted.

(** [ExAllocatePoolWithQuotaTag] raises when it cannot serve the request;
    the handler is empty and [MiniPacket] keeps its value, [NULL]. *)
Definition ExAllocatePoolWithQuotaTag (pool : POOL_OUTCOME) (w : WORLD)
  : PVOID * WORLD :=
  match pool with
  | PoolBlock p => (p, emit (EvExAllocatePoolWithQuotaTag p) w)
  | PoolExhausted => (NULL, emit EvExAllocatePoolWithQuotaTagRaised w)
  end.

(** [ExAllocatePoolWithTagPriority] returns [NULL] when it cannot serve
    the request. *)
Definition ExAllocatePoolWithTagPriority (pool : POOL_OUTCOME) (w : WORLD)
  : PVOID * WORLD :=
  match pool with
  | PoolBlock p => (p, emit (EvExAllocatePoolWithTagPriority p) w)
  | PoolExhausted => (NULL, emit (EvExAllocatePoolWithTagPriority NULL) w)
  end.

(** Lines 374-403: the packet, its type, and the state after the
    allocation attempts. *)
Definition IoSetIoCompletion_allocate (Quota : bool) (pool : POOL_OUTCOME)
  (w : WORLD) : PVOID * PACKET_TYPE * WORLD :=
  let PacketType := IopCompletionPacketMini in
  let w := set_P (inc_TotalAllocates (LookasideP w)) w in
  let '(MiniPacket, rest) :=
    InterlockedPopEntrySList (ListHead (LookasideP w)) in
  let w := set_P (set_ListHead rest (LookasideP w)) w in
  if decide (MiniPacket = NULL) then
    let w := set_P (inc_AllocateMisses (LookasideP w)) w in
    let w := set_L (inc_TotalAllocates (LookasideL w)) w in
    let '(MiniPacket, rest) :=
      InterlockedPopEntrySList (ListHead (LookasideL w)) in
    let w := set_L (set_ListHead rest (LookasideL w)) w in
    if decide (MiniPacket = NULL) then
      let w := set_L (inc_AllocateMisses (LookasideL w)) w in
      if Quota then
        let PacketType := IopCompletionPacketQuota in
        let '(MiniPacket, w) := ExAllocatePoolWithQuotaTag pool w in
        (MiniPacket, PacketType, w)
      else
        let '(MiniPacket, w) := ExAllocatePoolWithTagPriority pool w in
        (MiniPacket, PacketType, w)
    else (MiniPacket, PacketType, w)
  else (MiniPacket, PacketType, w).

Definition IoSetIoCompletion (KeyContext ApcContext : PVOID)
  (IoStatus : NTSTATUS) (IoStatusInformation : Z) (Quota : bool)
  (pool : POOL_OUTCOME) (w : WORLD) : NTSTATUS * WORLD :=
  let '(MiniPacket, PacketType, w) := IoSetIoCompletion_allocate Quota pool w in
  if decide (MiniPacket <> NULL) then
    let w :=
      set_Memory
        (<[MiniPacket :=
             ObjMini {| PacketType := PacketType; KeyContext := KeyContext;
                        ApcContext := ApcContext; IoStatus := IoStatus;
                        IoStatusInformation := IoStatusInformation |}]>
           (Memory w)) w in
    let w := emit (EvKeInsertQueue MiniPacket) w in
    (STATUS_SUCCESS, set_Queue (KeInsertQueue (Queue w) MiniPacket) w)
  else (STATUS_INSUFFICIENT_RESOURCES, w).

(** ** NtSetIoCompletion

    [handle] is the status [ObReferenceObjectByHandle] returns for the
    handle; on success the object referenced is the one whose queue the
    state holds. *)
Definition NtSetIoCompletion (handle : NTSTATUS) (KeyContext ApcContext : PVOID)
  (IoStatus : NTSTATUS) (IoStatusInformation : Z) (pool : POOL_OUTCOME)
  (w : WORLD) : NTSTATUS * WORLD :=
  let w := emit EvObReferenceObjectByHandle w in
  let Status := handle in
  if NT_SUCCESS Status then
    let '(Status, w) :=
      IoSetIoCompletion KeyContext ApcContext IoStatus IoStatusInformation
        true pool w in
    (Status, emit EvObDereferenceObject w)
  else (Status, w).

(** ** The caller of a system service *)

Inductive KPROCESSOR_MODE :=
| KernelMode
| UserMode.

#[global] Instance KPROCESSOR_MODE_eq_dec : EqDecision KPROCESSOR_MODE.
Proof. solve_decision. Defined.

(** The previous processor mode, the exception a probe of an argument
    raises (if any), and whether a store through an argument succeeds. *)
Record CALLER := {
  PreviousMode : KPROCESSOR_MODE;
  probe_raises : USER_ARG -> option NTSTATUS;
  writable : USER_ARG -> bool
}.

(** Probes in program order; the first exception ends them. *)
Fixpoint probe_all (c : CALLER) (args : list USER_ARG) : option NTSTATUS :=
  match args with
  | [] => None
  | a :: rest =>
      match probe_raises c a with
      | Some code => Some code
      | None => probe_all c rest
      end
  end.

Inductive EXCEPTION_DISPOSITION :=
| EXCEPTION_EXECUTE_HANDLER
| EXCEPTION_CONTINUE_SEARCH.

(** Modelled from the spec: ExSystemExceptionFilter (ex/, not part of
    complete.c), the filter of every [except] of the services but the one
    around the quota allocation.  The design notes describe the guarded
    stores as stores to caller memory whose fault is dropped; as in the
    Windows Research Kernel, the filter has the handler executed when the
    previous mode is not kernel mode and passes the exception on for a
    kernel-mode caller. *)
Definition ExSystemExceptionFilter (PreviousMode : KPROCESSOR_MODE)
  : EXCEPTION_DISPOSITION :=
  if decide (PreviousMode <> KernelMode) then EXCEPTION_EXECUTE_HANDLER
  else EXCEPTION_CONTINUE_SEARCH.

(** [except(ExSystemExceptionFilter()) { ... }] on an exception: the state
    the handler leaves when the filter takes the exception.  When the
    filter passes it on (the enclosing [try] of a service has the same
    filter) the exception leaves the service: the call does not return, the
    run is [None]. *)
Definition except_system {A : Type} (c : CALLER) (handler : A) : option A :=
  match ExSystemExceptionFilter (PreviousMode c) with
  | EXCEPTION_EXECUTE_HANDLER => Some handler
  | EXCEPTION_CONTINUE_SEARCH => None
  end.

(** Stores to caller memory inside a [try] guarded by
    [ExSystemExceptionFilter] whose handler does nothing: the first store
    that faults ends the block. *)
Fixpoint store_all (c : CALLER) (stores : list (USER_ARG * list Z))
  (w : WORLD) : option WORLD :=
  match stores with
  | [] => Some w
  | (a, v) :: rest =>
      if writable c a then store_all c rest (emit (EvWrite a v) w)
      else except_system c w
  end.

Definition IoFreeIrp (Irp : PVOID) (w : WORLD) : WORLD :=
  emit (EvIoFreeIrp Irp) (set_Memory (delete Irp (Memory w)) w).

Definition read_Irp (w : WORLD) (p : PVOID) : option IRP :=
  match Memory w !! p with
  | Some (ObjIrp irp) => Some irp
  | _ => None
  end.

Definition read_MiniPacket (w : WORLD) (p : PVOID)
  : option IOP_MINI_COMPLETION_PACKET :=
  match Memory w !! p with
  | Some (ObjMini pkt) => Some pkt
  | _ => None
  end.

(** ** NtRemoveIoCompletion *)

(** Lines 310-323: the completion information captured from the entry and
    the state after the entry has been released. *)
Definition NtRemoveIoCompletion_capture (Entry : PVOID) (w : WORLD)
  : option (PVOID * PVOID * IO_STATUS_BLOCK * WORLD) :=
  ty ← read_PacketType w Entry;
  if decide (ty = IopCompletionPacketIrp) then
    irp ← read_Irp w Entry;
    let LocalApcContext := UserApcContext irp in
    let LocalKeyContext := CompletionKey irp in
    let LocalIoStatusBlock := IrpIoStatus irp in
    Some (LocalApcContext, LocalKeyContext, LocalIoStatusBlock,
          IoFreeIrp Entry w)
  else
    pkt ← read_MiniPacket w Entry;
    let LocalApcContext := ApcContext pkt in
    let LocalKeyContext := KeyContext pkt in
    let LocalIoStatusBlock :=
      {| Status := IoStatus pkt; Information := IoStatusInformation pkt |} in
    w ← IopFreeMiniPacket Entry w;
    Some (LocalApcContext, LocalKeyContext, LocalIoStatusBlock, w).

(** The probes of lines 282-294, made when the previous mode is not
    kernel mode. *)
Definition NtRemoveIoCompletion_probes (c : CALLER) (TimeoutPresent : bool)
  : list USER_ARG :=
  if decide (PreviousMode c <> KernelMode) then
    [ArgApcContext; ArgKeyContext; ArgIoStatusBlock]
      ++ (if TimeoutPresent then [ArgTimeout] else [])
  else [].

(** The stores of lines 325-327. *)
Definition NtRemoveIoCompletion_stores (LocalApcContext LocalKeyContext : PVOID)
  (LocalIoStatusBlock : IO_STATUS_BLOCK) : list (USER_ARG * list Z) :=
  [(ArgApcContext, [LocalApcContext]);
   (ArgKeyContext, [LocalKeyContext]);
   (ArgIoStatusBlock,
    [Status LocalIoStatusBlock; Information LocalIoStatusBlock])].

(** [handle] is the status of [ObReferenceObjectByHandle], [TimeoutPresent]
    is [ARGUMENT_PRESENT(Timeout)], [t] is the calling thread and [o] says
    how its wait ends if it has to block.  The result is [None] when the
    call does not return: a read through an address that holds no object,
    or an exception that the filter passes on.  This is the service run in
    one step: the call is served on arrival, or its wait ends with
    STATUS_TIMEOUT or STATUS_USER_APC before another call is made on the
    port.  A call that waits while other calls are made is
    [NtRemoveIoCompletion_enter] followed by [NtRemoveIoCompletion_resume],
    defined below. *)
Definition NtRemoveIoCompletion (c : CALLER) (handle : NTSTATUS)
  (TimeoutPresent : bool) (t : THREAD) (o : WAIT_OUTCOME) (w : WORLD)
  : option (NTSTATUS * WORLD) :=
  match probe_all c (NtRemoveIoCompletion_probes c TimeoutPresent) with
  | Some code => except_system c (code, w)
  | None =>
      let w := emit EvObReferenceObjectByHandle w in
      if NT_SUCCESS handle then
        let '(Entry, q) := KeRemoveQueue (Queue w) t o in
        let w := set_Queue q w in
        if decide (Entry = STATUS_TIMEOUT \/ Entry = STATUS_USER_APC) then
          Some (Entry, emit EvObDereferenceObject w)
        else
          '(LocalApcContext, LocalKeyContext, LocalIoStatusBlock, w) ←
            NtRemoveIoCompletion_capture Entry w;
          w ← store_all c
                (NtRemoveIoCompletion_stores LocalApcContext LocalKeyContext
                   LocalIoStatusBlock) w;
          Some (STATUS_SUCCESS, emit EvObDereferenceObject w)
      else Some (handle, w)
  end.

(** Lines 305-334: the service from the return of [KeRemoveQueue] with
    the value [Entry]. *)
Definition NtRemoveIoCompletion_return (c : CALLER) (Entry : PVOID)
  (w : WORLD) : option (NTSTATUS * WORLD) :=
  if decide (Entry = STATUS_TIMEOUT \/ Entry = STATUS_USER_APC) then
    Some (Entry, emit EvObDereferenceObject w)
  else
    '(LocalApcContext, LocalKeyContext, LocalIoStatusBlock, w) ←
      NtRemoveIoCompletion_capture Entry w;
    w ← store_all c
          (NtRemoveIoCompletion_stores LocalApcContext LocalKeyContext
             LocalIoStatusBlock) w;
    Some (STATUS_SUCCESS, emit EvObDereferenceObject w).

(** [ARGUMENT_PRESENT(Timeout)] for the optional timeout. *)
Definition ARGUMENT_PRESENT (Timeout : option Z) : bool :=
  match Timeout with
  | Some _ => true
  | None => false
  end.

(** A call followed until it returns or blocks in [KeRemoveQueue]. *)
Inductive REMOVE_PROGRESS :=
| RemoveReturned (Status : NTSTATUS)
| RemoveBlocked.

(** [NtRemoveIoCompletion] up to the point where it returns or the
    calling thread blocks in [KeRemoveQueue] (line 302), holding its
    reference to the object.  [Timeout] is the optional timeout, [None]
    when the argument is not present. *)
Definition NtRemoveIoCompletion_enter (c : CALLER) (handle : NTSTATUS)
  (Timeout : option Z) (t : THREAD) (w : WORLD)
  : option (REMOVE_PROGRESS * WORLD) :=
  match probe_all c (NtRemoveIoCompletion_probes c (ARGUMENT_PRESENT Timeout))
  with
  | Some code =>
      '(Status, w) ← except_system c (code, w);
      Some (RemoveReturned Status, w)
  | None =>
      let w := emit EvObReferenceObjectByHandle w in
      if NT_SUCCESS handle then
        match KeRemoveQueue_arrive (Queue w) t with
        | (Some Entry, q) =>
            '(Status, w) ← NtRemoveIoCompletion_return c Entry (set_Queue q w);
            Some (RemoveReturned Status, w)
        | (None, q) => Some (RemoveBlocked, set_Queue q w)
        end
      else Some (RemoveReturned handle, w)
  end.

(** [NtRemoveIoCompletion] from the point where the blocked thread is
    resumed: [KeRemoveQueue] returns as the end [e] of the wait says, and
    the service runs to its return. *)
Definition NtRemoveIoCompletion_resume (c : CALLER) (Timeout : option Z)
  (t : THREAD) (e : WAIT_END) (w : WORLD) : option (NTSTATUS * WORLD) :=
  '(Entry, q) ← KeRemoveQueue_resume (Queue w) Timeout t e;
  NtRemoveIoCompletion_return c Entry (set_Queue q w).

(** ** NtQueryIoCompletion *)

Definition IoCompletionBasicInformation : Z := 0.

(** [sizeof(IO_COMPLETION_BASIC_INFORMATION)], which the source asserts to
    be [sizeof(ULONG)]. *)
Definition sizeof_IO_COMPLETION_BASIC_INFORMATION : Z := 4.

(** The probes of lines 167-173, made when the previous mode is not
    kernel mode. *)
Definition NtQueryIoCompletion_probes (c : CALLER) (ReturnLengthPresent : bool)
  : list USER_ARG :=
  if decide (PreviousMode c <> KernelMode) then
    [ArgIoCompletionInformation]
      ++ (if ReturnLengthPresent then [ArgReturnLength] else [])
  else [].

(** The result is [None] when the call does not return (an exception
    that the filter passes on). *)
Definition NtQueryIoCompletion (c : CALLER) (handle : NTSTATUS)
  (IoCompletionInformationClass : Z) (IoCompletionInformationLength : Z)
  (ReturnLengthPresent : bool) (w : WORLD) : option (NTSTATUS * WORLD) :=
  match probe_all c (NtQueryIoCompletion_probes c ReturnLengthPresent) with
  | Some code => except_system c (code, w)
  | None =>
      if decide (IoCompletionInformationClass <> IoCompletionBasicInformation)
      then Some (STATUS_INVALID_INFO_CLASS, w)
      else if decide (IoCompletionInformationLength
                      <> sizeof_IO_COMPLETION_BASIC_INFORMATION)
      then Some (STATUS_INFO_LENGTH_MISMATCH, w)
      else
        let w := emit EvObReferenceObjectByHandle w in
        if NT_SUCCESS handle then
          let Depth := KeReadStateQueue (Queue w) in
          let w := emit EvObDereferenceObject w in
          w ← store_all c
                ([(ArgIoCompletionInformation, [Depth])]
                   ++ (if ReturnLengthPresent
                       then [(ArgReturnLength,
                              [sizeof_IO_COMPLETION_BASIC_INFORMATION])]
                       else []))
                w;
          Some (handle, w)
        else Some (handle, w)
  end.

(** ** IopDeleteIoCompletion *)

(** The body of the [do ... while] loop, once per entry of the list
    [KeRundownQueue] returned; the link to the next entry is read before
    the entry is released. *)
Fixpoint IopDeleteIoCompletion_loop (entries : list PVOID) (w : WORLD)
  : option WORLD :=
  match entries with
  | [] => Some w
  | NextEntry :: rest =>
      ty ← read_PacketType w NextEntry;
      w ← (if decide (ty = IopCompletionPacketIrp)
           then Some (IoFreeIrp NextEntry w)
           else IopFreeMiniPacket NextEntry w);
      IopDeleteIoCompletion_loop rest w
  end.

Definition IopDeleteIoCompletion (w : WORLD) : option WORLD :=
  let '(entries, q) := KeRundownQueue (Queue w) in
  let w := set_Queue q w in
  match entries with
  | [] => Some w
  | _ :: _ => IopDeleteIoCompletion_loop entries w
  end.

(** ** Definitions used in the statements *)

(** The block the general pool hands out, [NULL] when it has none. *)
Definition pool_result (pool : POOL_OUTCOME) : PVOID :=
  match pool with
  | PoolBlock p => p
  | PoolExhausted => NULL
  end.

(** The allocation order in the words of the design: the per-processor
    tier, then the shared tier, then the general pool, charged to the
    caller's quota when [Quota] is set.  The result is the packet, its type
    and the call made to the general pool. *)
Definition tiered_allocation (Quota : bool) (pool : POOL_OUTCOME) (w : WORLD)
  : PVOID * PACKET_TYPE * list EVENT :=
  match ListHead (LookasideP w) with
  | p :: _ => (p, IopCompletionPacketMini, [])
  | [] =>
      match ListHead (LookasideL w) with
      | p :: _ => (p, IopCompletionPacketMini, [])
      | [] =>
          if Quota then
            (pool_result pool, IopCompletionPacketQuota,
             [match pool with
              | PoolBlock p => EvExAllocatePoolWithQuotaTag p
              | PoolExhausted => EvExAllocatePoolWithQuotaTagRaised
              end])
          else
            (pool_result pool, IopCompletionPacketMini,
             [EvExAllocatePoolWithTagPriority (pool_result pool)])
      end
  end.

(** The two tiers after an allocation, in the words of the design: the
    packet is popped from the tier that serves it; each tier that is asked
    counts the request, and counts a miss when it has no packet to give. *)
Definition tiers_after_allocation (w : WORLD)
  : GENERAL_LOOKASIDE * GENERAL_LOOKASIDE :=
  match ListHead (LookasideP w) with
  | _ :: rest =>
      (set_ListHead rest (inc_TotalAllocates (LookasideP w)), LookasideL w)
  | [] =>
      let P := inc_AllocateMisses (inc_TotalAllocates (LookasideP w)) in
      match ListHead (LookasideL w) with
      | _ :: rest =>
          (P, set_ListHead rest (inc_TotalAllocates (LookasideL w)))
      | [] => (P, inc_AllocateMisses (inc_TotalAllocates (LookasideL w)))
      end
  end.

(** Free lists hold addresses of packets, never [NULL]. *)
Definition lookasides_hold_packets (w : WORLD) : Prop :=
  (NULL ∉ ListHead (LookasideP w)) /\ (NULL ∉ ListHead (LookasideL w)).

(** The state a successful post leaves: the fields installed in the
    packet, the packet handed to [KeInsertQueue]. *)
Definition posted (p : PVOID) (ty : PACKET_TYPE) (Key Apc : PVOID)
  (St : NTSTATUS) (Info : Z) (evs : list EVENT) (w w' : WORLD) : Prop :=
  Memory w' =
    <[p := ObjMini {| PacketType := ty; KeyContext := Key;
                      ApcContext := Apc; IoStatus := St;
                      IoStatusInformation := Info |}]> (Memory w) /\
  Queue w' = KeInsertQueue (Queue w) p /\
  Trace w' = Trace w ++ evs.

(** A pool with both tiers empty, configured with depth [depth], and a
    queue created with the default concurrency limit on two processors. *)
Definition empty_lookaside (depth : Z) : GENERAL_LOOKASIDE :=
  {| ListHead := []; Depth := depth; TotalAllocates := 0;
     AllocateMisses := 0; TotalFrees := 0; FreeMisses := 0 |}.

Definition idle_world : WORLD :=
  {| LookasideP := empty_lookaside 4; LookasideL := empty_lookaside 4;
     Queue := KeInitializeQueue 2 0; Memory := ∅; Trace := [] |}.

(** The free operation in the words of the design: push on the
    per-processor tier when it is under its depth limit, else push on the
    shared tier when that is under its depth limit, else release to the
    general pool, reversing the quota charge first when the packet is
    tagged quota-charged. *)
Definition free_in_words (MiniPacket : PVOID) (w : WORLD) : option WORLD :=
  let w := set_P (inc_TotalFrees (LookasideP w)) w in
  if ExQueryDepthSList (ListHead (LookasideP w)) <? Depth (LookasideP w) then
    Some (set_P (set_ListHead (MiniPacket :: ListHead (LookasideP w))
                   (LookasideP w)) w)
  else
    let w := set_P (inc_FreeMisses (LookasideP w)) w in
    let w := set_L (inc_TotalFrees (LookasideL w)) w in
    if ExQueryDepthSList (ListHead (LookasideL w)) <? Depth (LookasideL w) then
      Some (set_L (set_ListHead (MiniPacket :: ListHead (LookasideL w))
                     (LookasideL w)) w)
    else
      let w := set_L (inc_FreeMisses (LookasideL w)) w in
      ty ← read_PacketType w MiniPacket;
      let w := return_quota_if_charged ty MiniPacket w in
      Some (emit (EvExFreePool MiniPacket)
              (set_Memory (delete MiniPacket (Memory w)) w)).

(** A free packet on each tier (4096 on the per-processor list, 8192 on
    the shared list), nothing queued. *)
Definition world_with_free_packet : WORLD :=
  {| LookasideP := set_ListHead [4096] (empty_lookaside 4);
     LookasideL := set_ListHead [8192] (empty_lookaside 4);
     Queue := KeInitializeQueue 2 0;
     Memory := {[ 4096 := ObjMini {| PacketType := IopCompletionPacketMini;
                                     KeyContext := 0; ApcContext := 0;
                                     IoStatus := 0;
                                     IoStatusInformation := 0 |};
                  8192 := ObjMini {| PacketType := IopCompletionPacketMini;
                                     KeyContext := 0; ApcContext := 0;
                                     IoStatus := 0;
                                     IoStatusInformation := 0 |} ]};
     Trace := [] |}.

Definition quota_packet : OBJECT :=
  ObjMini {| PacketType := IopCompletionPacketQuota; KeyContext := 1;
             ApcContext := 2; IoStatus := 0; IoStatusInformation := 3 |}.

(** Both tiers empty with depth limit [depth], one live quota-charged
    packet at address 4096, nothing queued. *)
Definition world_with_quota_packet (depth : Z) : WORLD :=
  {| LookasideP := empty_lookaside depth; LookasideL := empty_lookaside depth;
     Queue := KeInitializeQueue 2 0; Memory := {[ 4096 := quota_packet ]};
     Trace := [] |}.

(** The calls that release the quota of a packet of type [ty] on a push
    path. *)
Definition quota_calls (ty : PACKET_TYPE) (p : PVOID) : list EVENT :=
  if decide (ty = IopCompletionPacketQuota) then [EvExReturnPoolQuota p]
  else [].

(** The stores a block of stores performs before its first fault. *)
Fixpoint stores_made (c : CALLER) (stores : list (USER_ARG * list Z))
  : list EVENT :=
  match stores with
  | [] => []
  | (a, v) :: rest =>
      if writable c a then EvWrite a v :: stores_made c rest else []
  end.

Definition add_events (evs : list EVENT) (w : WORLD) : WORLD :=
  {| LookasideP := LookasideP w; LookasideL := LookasideL w; Queue := Queue w;
     Memory := Memory w; Trace := Trace w ++ evs |}.

(** A removal that returns an entry: the probes pass, the handle refers to
    the object and [KeRemoveQueue] returns [Entry], the address of a list
    entry. *)
Definition removal_returns (c : CALLER) (handle : NTSTATUS)
  (TimeoutPresent : bool) (t : THREAD) (o : WAIT_OUTCOME) (w : WORLD)
  (Entry : PVOID) (q : KQUEUE) : Prop :=
  probe_all c (NtRemoveIoCompletion_probes c TimeoutPresent) = None /\
  NT_SUCCESS handle = true /\
  KeRemoveQueue (Queue w) t o = (Entry, q) /\
  Entry <> STATUS_TIMEOUT /\ Entry <> STATUS_USER_APC.

Definition irp_object : OBJECT :=
  ObjIrp {| UserApcContext := 11; CompletionKey := 12;
            IrpIoStatus := {| Status := 0; Information := 13 |} |}.

(** A port with limit 2 holding an IRP entry at 8192 followed by a
    quota-charged mini packet at 4096. *)
Definition world_queued : WORLD :=
  {| LookasideP := empty_lookaside 4; LookasideL := empty_lookaside 4;
     Queue := {| EntryListHead := [8192; 4096]; MaximumCount := 2;
                 ActiveThreads := []; WaitListHead := []; Handed := [] |};
     Memory := {[ 4096 := quota_packet; 8192 := irp_object ]};
     Trace := [] |}.

Definition kernel_caller : CALLER :=
  {| PreviousMode := KernelMode; probe_raises := fun _ => None;
     writable := fun _ => true |}.

(** The events of the three stores of the completion information and of
    the dereference that follows them. *)
Definition delivery (Apc Key : PVOID) (Iosb : IO_STATUS_BLOCK) : list EVENT :=
  [EvWrite ArgApcContext [Apc]; EvWrite ArgKeyContext [Key];
   EvWrite ArgIoStatusBlock [Status Iosb; Information Iosb];
   EvObDereferenceObject].

(** An object whose packet type agrees with what it is: a mini packet is
    never tagged as an IRP. *)
Definition well_tagged (obj : OBJECT) : Prop :=
  match obj with
  | ObjIrp _ => True
  | ObjMini pkt => PacketType pkt <> IopCompletionPacketIrp
  end.

(** The release of an entry, by its packet type. *)
Definition release (Entry : PVOID) (obj : OBJECT) (w : WORLD) : option WORLD :=
  match obj with
  | ObjIrp _ => Some (IoFreeIrp Entry w)
  | ObjMini _ => IopFreeMiniPacket Entry w
  end.

Definition faulting_caller : CALLER :=
  {| PreviousMode := UserMode; probe_raises := fun _ => None;
     writable := fun _ => false |}.

(** A user-mode caller whose information buffer does not pass the probe. *)
Definition bad_buffer_caller : CALLER :=
  {| PreviousMode := UserMode;
     probe_raises := fun a =>
       if decide (a = ArgIoCompletionInformation)
       then Some STATUS_ACCESS_VIOLATION else None;
     writable := fun _ => false |}.

(** The IRPs handed to [IoFreeIrp] in a trace, in order. *)
Definition freed_irps (tr : list EVENT) : list PVOID :=
  omap (fun ev => match ev with EvIoFreeIrp p => Some p | _ => None end) tr.

(** A trace without stores to caller memory. *)
Definition no_stores (tr : list EVENT) : Prop :=
  Forall (fun ev => match ev with EvWrite _ _ => False | _ => True end) tr.

Definition is_irp (obj : OBJECT) : bool :=
  match obj with
  | ObjIrp _ => true
  | ObjMini _ => false
  end.

(** Every entry released once, in order, by the type of the object that
    was at its address when the queue was run down. *)
Fixpoint release_all (entries : list (PVOID * OBJECT)) (w : WORLD)
  : option WORLD :=
  match entries with
  | [] => Some w
  | (e, obj) :: rest => w ← release e obj w; release_all rest w
  end.

(** The pending entries are distinct live objects. *)
Definition entries_live (m : gmap Z OBJECT) (entries : list (PVOID * OBJECT))
  : Prop :=
  NoDup (entries.*1) /\
  Forall (fun eo => m !! eo.1 = Some eo.2 /\ well_tagged eo.2) entries.

(** Modelled from the spec: the pool routines of ex/pool.c are not part of
    complete.c.  A quota charge is debited when [ExAllocatePoolWithQuotaTag]
    hands out a block and credited on release: [ExReturnPoolQuota] credits
    the block's charge, and [ExFreePool] credits it when the block still
    carries one.  The account of one address is read off the trace. *)
Record ACCOUNT := {
  charged : nat;
  released : nat;
  outstanding : bool
}.

Definition quota_step (p : PVOID) (a : ACCOUNT) (ev : EVENT) : ACCOUNT :=
  match ev with
  | EvExAllocatePoolWithQuotaTag q =>
      if decide (q = p)
      then {| charged := S (charged a); released := released a;
              outstanding := true |}
      else a
  | EvExReturnPoolQuota q =>
      if decide (q = p)
      then {| charged := charged a; released := S (released a);
              outstanding := false |}
      else a
  | EvExFreePool q =>
      if decide (q = p)
      then if outstanding a
           then {| charged := charged a; released := S (released a);
                   outstanding := false |}
           else a
      else a
  | _ => a
  end.

Definition quota_account (p : PVOID) (tr : list EVENT) : ACCOUNT :=
  fold_left (quota_step p) tr
    {| charged := 0; released := 0; outstanding := false |}.

(** Every charge so far has been released once, except the one that is
    still outstanding. *)
Definition balanced (a : ACCOUNT) : Prop :=
  charged a = (released a + (if outstanding a then 1 else 0))%nat.

(** Events that leave every account alone. *)
Definition quota_neutral (ev : EVENT) : bool :=
  match ev with
  | EvExAllocatePoolWithQuotaTag _ | EvExReturnPoolQuota _ | EvExFreePool _ =>
      false
  | _ => true
  end.

(** A kernel address is none of the values [KeRemoveQueue] uses as a
    status, and is not [NULL]. *)
Definition kernel_address (p : PVOID) : Prop := 0x80000000 <= p.

(** The invariant, over the entries [pend] that are pending: the free
    lists and the pending entries are distinct live objects at kernel
    addresses, every account is balanced, and a charge is outstanding
    exactly for the pending packets that are tagged quota-charged. *)
Definition quota_inv (pend : list PVOID) (w : WORLD) : Prop :=
  NoDup (ListHead (LookasideP w) ++ ListHead (LookasideL w) ++ pend) /\
  (forall p, p ∈ ListHead (LookasideP w) ++ ListHead (LookasideL w) ++ pend ->
     kernel_address p /\
     exists obj, Memory w !! p = Some obj /\ well_tagged obj) /\
  (forall p, balanced (quota_account p (Trace w)) /\
     (outstanding (quota_account p (Trace w)) = true <->
      p ∈ pend /\
      exists obj, Memory w !! p = Some obj /\
                  ObjPacketType obj = IopCompletionPacketQuota)).

(** The objects a world keeps track of: both free lists and the pending
    entries. *)
Definition tracked (pend : list PVOID) (w : WORLD) : list PVOID :=
  ListHead (LookasideP w) ++ ListHead (LookasideL w) ++ pend.

(** The invariant of the whole state: the pending entries are those of
    the queue, and no thread is left on the wait list between two calls
    (every call runs to its return). *)
Definition world_inv (w : WORLD) : Prop :=
  quota_inv (EntryListHead (Queue w)) w /\ WaitListHead (Queue w) = [].

(** The general pool hands out kernel addresses that are not in use. *)
Definition pool_fresh (w : WORLD) (pool : POOL_OUTCOME) : Prop :=
  match pool with
  | PoolBlock p => kernel_address p /\ Memory w !! p = None
  | PoolExhausted => True
  end.

(** Modelled from the spec: the completion of a request that is
    associated with the port queues the IRP's entry; that path is not part
    of complete.c.  The IRP lives at a kernel address of its own. *)
Definition irp_completion (p : PVOID) (irp : IRP) (w : WORLD) : WORLD :=
  emit (EvKeInsertQueue p)
    (set_Queue (KeInsertQueue (Queue w) p)
       (set_Memory (<[p := ObjIrp irp]> (Memory w)) w)).

(** One call on the port, run to its return. *)
Inductive step : WORLD -> WORLD -> Prop :=
| step_IoSetIoCompletion Key Apc St Info Quota pool w :
    pool_fresh w pool ->
    step w (IoSetIoCompletion Key Apc St Info Quota pool w).2
| step_NtSetIoCompletion handle Key Apc St Info pool w :
    pool_fresh w pool ->
    step w (NtSetIoCompletion handle Key Apc St Info pool w).2
| step_NtRemoveIoCompletion c handle tp t o w St w' :
    NtRemoveIoCompletion c handle tp t o w = Some (St, w') ->
    step w w'
| step_NtQueryIoCompletion c handle cls len rl w St w' :
    NtQueryIoCompletion c handle cls len rl w = Some (St, w') ->
    step w w'
| step_IopDeleteIoCompletion w w' :
    IopDeleteIoCompletion w = Some w' ->
    step w w'
| step_irp_completion p irp w :
    kernel_address p -> Memory w !! p = None ->
    step w (irp_completion p irp w).

(** A quota-charged post followed by the removal of the packet. *)
Definition world_after_post : WORLD :=
  (IoSetIoCompletion 7 8 0 512 true (PoolBlock 0x80001000) idle_world).2.

Definition world_after_remove : WORLD :=
  match NtRemoveIoCompletion kernel_caller STATUS_SUCCESS false 1%nat
          WaitTimeout world_after_post with
  | Some (_, w) => w
  | None => world_after_post
  end.


(** Consumers calling [NtRemoveIoCompletion] one after the other, each
    call followed until it returns or blocks. *)
Fixpoint run_consumers (c : CALLER) (handle : NTSTATUS) (Timeout : option Z)
  (ts : list THREAD) (w : WORLD) : option (list REMOVE_PROGRESS * WORLD) :=
  match ts with
  | [] => Some ([], w)
  | t :: rest =>
      '(r, w) ← NtRemoveIoCompletion_enter c handle Timeout t w;
      '(rs, w) ← run_consumers c handle Timeout rest w;
      Some (r :: rs, w)
  end.


(** ** NtCreateIoCompletion and NtOpenIoCompletion *)

(** The calls the two handle services make, and the store of the handle
    to the caller. *)
Inductive HANDLE_EVENT :=
| HeObCreateObject
| HeKeInitializeQueue (Count : nat)
| HeObInsertObject (Object : KQUEUE)
| HeObOpenObjectByName
| HeWriteHandle (Handle : Z).

(** The caller's handle variable: the exception [ProbeForWriteHandle]
    raises on it (if any), and whether a store through it succeeds. *)
Record HANDLE_ARG := {
  handle_probe_raises : option NTSTATUS;
  handle_writable : bool
}.

(** The probe of lines 60-63 and 109-112, made when the previous mode is
    not kernel mode. *)
Definition probe_handle (Mode : KPROCESSOR_MODE)
  (IoCompletionHandle : HANDLE_ARG) : option NTSTATUS :=
  if decide (Mode <> KernelMode) then handle_probe_raises IoCompletionHandle
  else None.

(** [except(ExSystemExceptionFilter())] in the two handle services, by the
    previous mode. *)
Definition except_system_mode {A : Type} (Mode : KPROCESSOR_MODE) (handler : A)
  : option A :=
  match ExSystemExceptionFilter Mode with
  | EXCEPTION_EXECUTE_HANDLER => Some handler
  | EXCEPTION_CONTINUE_SEARCH => None
  end.

(** The store [*IoCompletionHandle = Handle] inside a [try] guarded by
    [ExSystemExceptionFilter] whose handler does nothing. *)
Definition store_handle (Mode : KPROCESSOR_MODE)
  (IoCompletionHandle : HANDLE_ARG) (Handle : Z)
  : option (list HANDLE_EVENT) :=
  if handle_writable IoCompletionHandle then Some [HeWriteHandle Handle]
  else except_system_mode Mode [].

(** [create] and [insert] are the statuses of [ObCreateObject] and
    [ObInsertObject], [Handle] is the handle [ObInsertObject] produces and
    [NumberProcessors] the number of processors of the machine.  The
    result is the service status and the calls made, in order; it is [None]
    when the call does not return (an exception that the filter passes
    on). *)
Definition NtCreateIoCompletion (Mode : KPROCESSOR_MODE)
  (IoCompletionHandle : HANDLE_ARG) (Count : nat) (NumberProcessors : nat)
  (create insert : NTSTATUS) (Handle : Z)
  : option (NTSTATUS * list HANDLE_EVENT) :=
  match probe_handle Mode IoCompletionHandle with
  | Some code => except_system_mode Mode (code, [])
  | None =>
      if NT_SUCCESS create then
        let IoCompletion := KeInitializeQueue NumberProcessors Count in
        if NT_SUCCESS insert then
          stored ← store_handle Mode IoCompletionHandle Handle;
          Some (insert,
                [HeObCreateObject; HeKeInitializeQueue Count;
                 HeObInsertObject IoCompletion] ++ stored)
        else
          Some (insert,
                [HeObCreateObject; HeKeInitializeQueue Count;
                 HeObInsertObject IoCompletion])
      else Some (create, [HeObCreateObject])
  end.

(** [open] is the status of [ObOpenObjectByName] and [Handle] the handle
    it produces. *)
Definition NtOpenIoCompletion (Mode : KPROCESSOR_MODE)
  (IoCompletionHandle : HANDLE_ARG) (open : NTSTATUS) (Handle : Z)
  : option (NTSTATUS * list HANDLE_EVENT) :=
  match probe_handle Mode IoCompletionHandle with
  | Some code => except_system_mode Mode (code, [])
  | None =>
      if NT_SUCCESS open then
        stored ← store_handle Mode IoCompletionHandle Handle;
        Some (open, [HeObOpenObjectByName] ++ stored)
      else Some (open, [HeObOpenObjectByName])
  end.

(** ** Definitions used in the statements on the pool *)

(** A tier that holds no more packets than its depth limit. *)
Definition tier_bounded (la : GENERAL_LOOKASIDE) : Prop :=
  ExQueryDepthSList (ListHead la) <= Depth la.

(** The distance between two ULONG counters. *)
Definition ulong_diff (a b : Z) : Z := (a - b) mod 2 ^ 32.

(** What a run may do to the two tiers: the depth limits stay, a list
    grows only while it is under its limit, and the shared tier is asked
    exactly as often as the per-processor tier misses. *)
Definition pool_step (w w' : WORLD) : Prop :=
  Depth (LookasideP w') = Depth (LookasideP w) /\
  Depth (LookasideL w') = Depth (LookasideL w) /\
  ExQueryDepthSList (ListHead (LookasideP w'))
    <= Z.max (ExQueryDepthSList (ListHead (LookasideP w)))
             (Depth (LookasideP w)) /\
  ExQueryDepthSList (ListHead (LookasideL w'))
    <= Z.max (ExQueryDepthSList (ListHead (LookasideL w)))
             (Depth (LookasideL w)) /\
  ulong_diff (AllocateMisses (LookasideP w')) (TotalAllocates (LookasideL w'))
    = ulong_diff (AllocateMisses (LookasideP w))
        (TotalAllocates (LookasideL w)) /\
  ulong_diff (FreeMisses (LookasideP w')) (TotalFrees (LookasideL w'))
    = ulong_diff (FreeMisses (LookasideP w)) (TotalFrees (LookasideL w)).

(** ** Definitions used in the statements on faulting stores *)

(** Whether one of the stores of a block faults. *)
Definition faults (c : CALLER) (stores : list (USER_ARG * list Z)) : bool :=
  existsb (fun s => negb (writable c s.1)) stores.



(** ** Definitions used in the statements on the concurrency limit *)


(** A port created on one processor with the default limit, which is 1,
    and the state after two posts to it. *)
Definition uniprocessor_world : WORLD :=
  {| LookasideP := empty_lookaside 4; LookasideL := empty_lookaside 4;
     Queue := KeInitializeQueue 1 0; Memory := ∅; Trace := [] |}.

Definition world_two_pending : WORLD :=
  (IoSetIoCompletion 3 4 0 16 false (PoolBlock 0x80002000)
     (IoSetIoCompletion 1 2 0 8 false (PoolBlock 0x80001000)
        uniprocessor_world).2).2.

(** Threads 5 and 9 have called [NtRemoveIoCompletion] on that port. *)
Definition world_at_ceiling : WORLD :=
  match run_consumers kernel_caller STATUS_SUCCESS None [5; 9]%nat
          world_two_pending with
  | Some (_, w) => w
  | None => world_two_pending
  end.

(** Thread 5 has then called [NtRemoveIoCompletion] a second time. *)
Definition world_after_second_call : WORLD :=
  match NtRemoveIoCompletion_enter kernel_caller STATUS_SUCCESS None 5%nat
          world_at_ceiling with
  | Some (_, w) => w
  | None => world_at_ceiling
  end.

(** Thread 5 has called a third time, and a packet has been posted. *)
Definition world_after_third_call_and_post : WORLD :=
  match NtRemoveIoCompletion_enter kernel_caller STATUS_SUCCESS None 5%nat
          world_after_second_call with
  | Some (_, w) =>
      (IoSetIoCompletion 5 6 0 24 false (PoolBlock 0x80003000) w).2
  | None => world_after_second_call
  end.

(** * Properties *)

(** ** Posting a completion *)

Lemma IoSetIoCompletion_allocate_tiered Quota pool w :
  lookasides_hold_packets w ->
  let '(p, ty, w') := IoSetIoCompletion_allocate Quota pool w in
  let '(p0, ty0, evs) := tiered_allocation Quota pool w in
  p = p0 /\ ty = ty0 /\ Trace w' = Trace w ++ evs /\
  Memory w' = Memory w /\ Queue w' = Queue w.
Proof.
  intros [HP HL]. unfold IoSetIoCompletion_allocate, tiered_allocation.
  destruct w as [[lp ? ? ? ? ?] [ll ? ? ? ? ?] q m tr]; simpl in *.
  destruct lp as [|p lp]; simpl.
  - destruct (decide (NULL = NULL)) as [_|]; [|done].
    destruct ll as [|p ll]; simpl.
    + destruct (decide (NULL = NULL)) as [_|]; [|done].
      destruct Quota, pool; simpl; auto.
    + destruct (decide (p = NULL)) as [->|_].
      * exfalso. apply HL. left.
      * simpl. rewrite app_nil_r. auto.
  - destruct (decide (p = NULL)) as [->|_].
    + exfalso. apply HP. left.
    + simpl. rewrite app_nil_r. auto.
Qed.

Lemma IoSetIoCompletion_outcome Key Apc St Info Quota pool w :
  lookasides_hold_packets w ->
  let '(p, ty, evs) := tiered_allocation Quota pool w in
  let '(Status, w') := IoSetIoCompletion Key Apc St Info Quota pool w in
  (p = NULL <->
     ListHead (LookasideP w) = [] /\ ListHead (LookasideL w) = [] /\
     pool_result pool = NULL) /\
  (p = NULL ->
     Status = STATUS_INSUFFICIENT_RESOURCES /\ Memory w' = Memory w /\
     Queue w' = Queue w /\ Trace w' = Trace w ++ evs) /\
  (p <> NULL ->
     Status = STATUS_SUCCESS /\
     posted p ty Key Apc St Info (evs ++ [EvKeInsertQueue p]) w w').
Proof.
  intros Hwf. pose proof (IoSetIoCompletion_allocate_tiered Quota pool w Hwf) as H.
  unfold IoSetIoCompletion.
  destruct (IoSetIoCompletion_allocate Quota pool w) as [[p ty] w1].
  destruct (tiered_allocation Quota pool w) as [[p0 ty0] evs] eqn:Et.
  destruct H as (-> & -> & Htr & Hm & Hq).
  assert (Hiff : p0 = NULL <->
     ListHead (LookasideP w) = [] /\ ListHead (LookasideL w) = [] /\
     pool_result pool = NULL).
  { unfold tiered_allocation in Et. destruct Hwf as [HP HL].
    destruct (ListHead (LookasideP w)) as [|a lp].
    - destruct (ListHead (LookasideL w)) as [|b ll].
      + destruct Quota; inversion Et; subst; tauto.
      + inversion Et; subst. split; [|intros (_ & ? & _); done].
        intros ->. exfalso. apply HL. left.
    - inversion Et; subst. split; [|intros (? & _); done].
      intros ->. exfalso. apply HP. left. }
  destruct (decide (p0 <> NULL)) as [Hnn|Hn]; simpl.
  - split; [done|]. split; [intros; done|]. intros _. split; [done|].
    unfold posted; simpl. rewrite Hm, Hq, Htr, <- app_assoc. done.
  - split; [done|]. split; [|intros; done]. intros _. done.
Qed.

Lemma tiered_allocation_emit Quota pool e w :
  tiered_allocation Quota pool (emit e w) = tiered_allocation Quota pool w.
Proof. reflexivity. Qed.

Lemma IoSetIoCompletion_tiers Key Apc St Info Quota pool w :
  lookasides_hold_packets w ->
  let w' := (IoSetIoCompletion Key Apc St Info Quota pool w).2 in
  (LookasideP w', LookasideL w') = tiers_after_allocation w.
Proof.
  intros [HP HL]. unfold IoSetIoCompletion, IoSetIoCompletion_allocate,
    tiers_after_allocation.
  destruct w as [[lp dp ta am tf fm] [ll dl ta' am' tf' fm'] q m tr].
  simpl in HP, HL.
  destruct lp as [|a lp].
  - destruct ll as [|b ll].
    + destruct Quota, pool as [p|]; cbn;
        repeat (match goal with
                | |- context [decide ?P] => destruct (decide P)
                end; cbn); done.
    + assert (Hb : b <> NULL).
      { intros ->. apply HL. left. }
      destruct Quota, pool as [p|]; cbn;
        repeat (match goal with
                | |- context [decide ?P] => destruct (decide P)
                end; cbn); done.
  - assert (Ha : a <> NULL).
    { intros ->. apply HP. left. }
    destruct Quota, pool as [p|]; cbn;
      repeat (match goal with
              | |- context [decide ?P] => destruct (decide P)
              end; cbn); done.
Qed.

(** C1: a post takes its packet from the per-processor tier, else from
    the shared tier, else from the general pool (with quota when [Quota]
    is set, without otherwise).  The packet taken from a tier is popped
    from it: after the call the tiers are as [tiers_after_allocation] says,
    the serving tier without its head and the other list untouched.  The
    post returns STATUS_INSUFFICIENT_RESOURCES exactly when both tiers are
    empty and the pool yields no packet, and then nothing is installed or
    inserted; in every other case it returns STATUS_SUCCESS, has installed
    the key context, APC context, status and status information in the
    packet and has inserted the packet in the queue.  [NtSetIoCompletion]
    over a valid reference does the same with quota charging, between the
    reference and the dereference of the object. *)
Theorem IoSetIoCompletion_allocates_installs_inserts
  Key Apc St Info Quota pool w :
  lookasides_hold_packets w ->
  (let '(p, ty, evs) := tiered_allocation Quota pool w in
   let '(Status, w') := IoSetIoCompletion Key Apc St Info Quota pool w in
   (Status = STATUS_INSUFFICIENT_RESOURCES <->
      ListHead (LookasideP w) = [] /\ ListHead (LookasideL w) = [] /\
      pool_result pool = NULL) /\
   (Status <> STATUS_INSUFFICIENT_RESOURCES ->
      Status = STATUS_SUCCESS /\
      posted p ty Key Apc St Info (evs ++ [EvKeInsertQueue p]) w w') /\
   (Status = STATUS_INSUFFICIENT_RESOURCES ->
      Memory w' = Memory w /\ Queue w' = Queue w /\
      Trace w' = Trace w ++ evs) /\
   (LookasideP w', LookasideL w') = tiers_after_allocation w) /\
  (forall handle, NT_SUCCESS handle = true ->
   let '(p, ty, evs) := tiered_allocation true pool w in
   let '(Status, w') := NtSetIoCompletion handle Key Apc St Info pool w in
   (Status = STATUS_INSUFFICIENT_RESOURCES <->
      ListHead (LookasideP w) = [] /\ ListHead (LookasideL w) = [] /\
      pool_result pool = NULL) /\
   (Status <> STATUS_INSUFFICIENT_RESOURCES ->
      Status = STATUS_SUCCESS /\
      posted p ty Key Apc St Info
        ([EvObReferenceObjectByHandle] ++ evs ++
         [EvKeInsertQueue p; EvObDereferenceObject]) w w') /\
   (Status = STATUS_INSUFFICIENT_RESOURCES ->
      Memory w' = Memory w /\ Queue w' = Queue w /\
      Trace w' =
        Trace w ++ [EvObReferenceObjectByHandle] ++ evs
          ++ [EvObDereferenceObject]) /\
   (LookasideP w', LookasideL w') = tiers_after_allocation w).
Proof.
  intros Hwf. split.
  - pose proof (IoSetIoCompletion_outcome Key Apc St Info Quota pool w Hwf) as H.
    pose proof (IoSetIoCompletion_tiers Key Apc St Info Quota pool w Hwf) as Ht.
    destruct (tiered_allocation Quota pool w) as [[p ty] evs].
    destruct (IoSetIoCompletion Key Apc St Info Quota pool w) as [Status w'].
    destruct H as (Hiff & Hnull & Hok). simpl in Ht.
    destruct (decide (p = NULL)) as [Hp|Hp].
    + destruct (Hnull Hp) as (-> & Hrest).
      split; [by rewrite <- Hiff|]. split; [done|]. by split.
    + destruct (Hok Hp) as (-> & Hposted).
      split; [rewrite <- Hiff; split; [discriminate|done]|].
      split; [done|]. split; [discriminate|done].
  - intros handle Hh. unfold NtSetIoCompletion. rewrite Hh.
    pose proof (IoSetIoCompletion_outcome Key Apc St Info true pool
                  (emit EvObReferenceObjectByHandle w) Hwf) as H.
    pose proof (IoSetIoCompletion_tiers Key Apc St Info true pool
                  (emit EvObReferenceObjectByHandle w) Hwf) as Ht.
    rewrite tiered_allocation_emit in H.
    destruct (tiered_allocation true pool w) as [[p ty] evs].
    destruct (IoSetIoCompletion Key Apc St Info true pool
                (emit EvObReferenceObjectByHandle w)) as [Status w'].
    simpl in H, Ht. destruct H as (Hiff & Hnull & Hok).
    destruct (decide (p = NULL)) as [Hp|Hp].
    + destruct (Hnull Hp) as (-> & Hm & Hq & Htr).
      split; [by rewrite <- Hiff|]. split; [done|].
      split; [|exact Ht]. intros _. simpl. rewrite Hm, Hq, Htr. simpl.
      repeat rewrite <- app_assoc. done.
    + destruct (Hok Hp) as (-> & Hm & Hq & Htr).
      split; [rewrite <- Hiff; split; [discriminate|done]|].
      split; [|split; [discriminate|exact Ht]].
      intros _. split; [done|]. unfold posted; simpl.
      rewrite Hm, Hq, Htr. simpl. repeat rewrite <- app_assoc. done.
Qed.

Lemma IoSetIoCompletion_allocates_installs_inserts_witness :
  lookasides_hold_packets world_with_free_packet /\
  (let w' := (IoSetIoCompletion 7 8 0 512 true PoolExhausted
                world_with_free_packet).2 in
   fst (IoSetIoCompletion 7 8 0 512 true PoolExhausted world_with_free_packet)
     = STATUS_SUCCESS /\
   ListHead (LookasideP w') = [] /\ ListHead (LookasideL w') = [8192] /\
   EntryListHead (Queue w') = [4096]).
Proof.
  assert (Hwf : lookasides_hold_packets world_with_free_packet).
  { split; simpl; rewrite list_elem_of_singleton; discriminate. }
  split; [exact Hwf|].
  pose proof (IoSetIoCompletion_allocates_installs_inserts
                7 8 0 512 true PoolExhausted world_with_free_packet Hwf)
    as [H _].
  simpl tiered_allocation in H.
  destruct (IoSetIoCompletion 7 8 0 512 true PoolExhausted
              world_with_free_packet) as [Status w'].
  destruct H as (Hiff & Hok & _ & Ht). cbn [fst snd].
  assert (Hne : Status <> STATUS_INSUFFICIENT_RESOURCES).
  { intros Hs. apply Hiff in Hs. destruct Hs as (Hs & _). discriminate Hs. }
  destruct (Hok Hne) as (Hst & _ & Hq & _).
  injection Ht as HP HL.
  split; [exact Hst|]. rewrite HP, HL, Hq. done.
Defined.

(** ** Freeing a mini packet *)

Lemma return_quota_if_charged_spec ty p w :
  return_quota_if_charged ty p w =
  {| LookasideP := LookasideP w; LookasideL := LookasideL w; Queue := Queue w;
     Memory := Memory w; Trace := Trace w ++ quota_calls ty p |}.
Proof.
  unfold return_quota_if_charged, quota_calls.
  destruct (decide _); simpl; [done|]. rewrite app_nil_r. by destruct w.
Qed.

(** What [IopFreeMiniPacket] does, by case on the depth of the two tiers. *)
Lemma IopFreeMiniPacket_cases p o w :
  Memory w !! p = Some o ->
  exists w', IopFreeMiniPacket p w = Some w' /\ Queue w' = Queue w /\
    TotalFrees (LookasideP w') = ulong_inc (TotalFrees (LookasideP w)) /\
    if ExQueryDepthSList (ListHead (LookasideP w)) <? Depth (LookasideP w)
    then
      ListHead (LookasideP w') = p :: ListHead (LookasideP w) /\
      LookasideL w' = LookasideL w /\ Memory w' = Memory w /\
      Trace w' = Trace w ++ quota_calls (ObjPacketType o) p
    else
      ListHead (LookasideP w') = ListHead (LookasideP w) /\
      if ExQueryDepthSList (ListHead (LookasideL w)) <? Depth (LookasideL w)
      then
        ListHead (LookasideL w') = p :: ListHead (LookasideL w) /\
        Memory w' = Memory w /\
        Trace w' = Trace w ++ quota_calls (ObjPacketType o) p
      else
        ListHead (LookasideL w') = ListHead (LookasideL w) /\
        Memory w' = delete p (Memory w) /\
        Trace w' = Trace w ++ [EvExFreePool p].
Proof.
  intros Hm. unfold IopFreeMiniPacket, read_PacketType. simpl.
  rewrite Hm. simpl.
  rewrite !return_quota_if_charged_spec. simpl.
  destruct (Z.leb_spec (Depth (LookasideP w))
              (ExQueryDepthSList (ListHead (LookasideP w)))) as [H1|H1].
  - destruct (Z.ltb_spec (ExQueryDepthSList (ListHead (LookasideP w)))
                (Depth (LookasideP w))) as [H1'|_]; [lia|].
    destruct (Z.leb_spec (Depth (LookasideL w))
                (ExQueryDepthSList (ListHead (LookasideL w)))) as [H2|H2].
    + destruct (Z.ltb_spec (ExQueryDepthSList (ListHead (LookasideL w)))
                  (Depth (LookasideL w))) as [H2'|_]; [lia|].
      eexists; split; [reflexivity|]. simpl. repeat split.
    + destruct (Z.ltb_spec (ExQueryDepthSList (ListHead (LookasideL w)))
                  (Depth (LookasideL w))) as [_|H2']; [|lia].
      eexists; split; [reflexivity|]. simpl. repeat split.
  - destruct (Z.ltb_spec (ExQueryDepthSList (ListHead (LookasideP w)))
                (Depth (LookasideP w))) as [_|H1']; [|lia].
    eexists; split; [reflexivity|]. simpl.
    repeat split.
Qed.

(** C4, as the code has it: for every live packet the free operation
    returns normally; with the per-processor tier under its depth limit the
    packet is pushed there, else with the shared tier under its depth limit
    it is pushed there, and on both push paths [ExReturnPoolQuota] is
    called first when the packet is tagged quota-charged; with both tiers at
    their limit the packet is released with [ExFreePool], the only call
    made on that path. *)
Theorem IopFreeMiniPacket_push_or_release p o w :
  Memory w !! p = Some o ->
  exists w', IopFreeMiniPacket p w = Some w' /\ Queue w' = Queue w /\
    if ExQueryDepthSList (ListHead (LookasideP w)) <? Depth (LookasideP w)
    then
      ListHead (LookasideP w') = p :: ListHead (LookasideP w) /\
      ListHead (LookasideL w') = ListHead (LookasideL w) /\
      Memory w' = Memory w /\
      Trace w' = Trace w ++ quota_calls (ObjPacketType o) p
    else
      ListHead (LookasideP w') = ListHead (LookasideP w) /\
      if ExQueryDepthSList (ListHead (LookasideL w)) <? Depth (LookasideL w)
      then
        ListHead (LookasideL w') = p :: ListHead (LookasideL w) /\
        Memory w' = Memory w /\
        Trace w' = Trace w ++ quota_calls (ObjPacketType o) p
      else
        ListHead (LookasideL w') = ListHead (LookasideL w) /\
        Memory w' = delete p (Memory w) /\
        Trace w' = Trace w ++ [EvExFreePool p].
Proof.
  intros Hm. destruct (IopFreeMiniPacket_cases p o w Hm)
    as (w' & Hrun & Hq & _ & Hc).
  exists w'. split; [done|]. split; [done|].
  destruct (_ <? _); [|done].
  destruct Hc as (? & -> & ? & ?). done.
Qed.

Lemma IopFreeMiniPacket_push_or_release_witness :
  Memory (world_with_quota_packet 4) !! 4096 = Some quota_packet /\
  exists w', IopFreeMiniPacket 4096 (world_with_quota_packet 4) = Some w' /\
    ListHead (LookasideP w') = [4096] /\
    Trace w' = [EvExReturnPoolQuota 4096].
Proof.
  assert (Hm : Memory (world_with_quota_packet 4) !! 4096 = Some quota_packet)
    by reflexivity.
  split; [exact Hm|].
  destruct (IopFreeMiniPacket_push_or_release 4096 quota_packet
              (world_with_quota_packet 4) Hm) as (w' & Hrun & _ & Hc).
  exists w'. split; [exact Hrun|].
  simpl in Hc. destruct Hc as (Hp & _ & _ & Ht). split; assumption.
Defined.

(** C4 as worded does not describe the code: on a push path the code
    returns the quota of a quota-charged packet, the worded operation makes
    no call at all. *)
Lemma IopFreeMiniPacket_differs_from_words :
  Trace <$> IopFreeMiniPacket 4096 (world_with_quota_packet 4)
    = Some [EvExReturnPoolQuota 4096] /\
  Trace <$> free_in_words 4096 (world_with_quota_packet 4) = Some [] /\
  IopFreeMiniPacket 4096 (world_with_quota_packet 4)
    <> free_in_words 4096 (world_with_quota_packet 4).
Proof.
  assert (H1 : Trace <$> IopFreeMiniPacket 4096 (world_with_quota_packet 4)
               = Some [EvExReturnPoolQuota 4096]) by reflexivity.
  assert (H2 : Trace <$> free_in_words 4096 (world_with_quota_packet 4)
               = Some []) by reflexivity.
  split; [exact H1|]. split; [exact H2|].
  intros Heq. rewrite Heq, H2 in H1. discriminate H1.
Qed.

(** ** Removing an entry *)

Lemma add_events_nil w : add_events [] w = w.
Proof. unfold add_events. rewrite app_nil_r. by destruct w. Qed.

Lemma add_events_app evs1 evs2 w :
  add_events evs2 (add_events evs1 w) = add_events (evs1 ++ evs2) w.
Proof. unfold add_events; simpl. by rewrite app_assoc. Qed.

Lemma emit_add_events e w : emit e w = add_events [e] w.
Proof. reflexivity. Qed.

(** A block of stores: the stores before the first fault are made; the
    block returns unless a store faults and the filter passes the
    exception on. *)
Lemma store_all_events c stores w :
  store_all c stores w =
    if faults c stores
    then except_system c (add_events (stores_made c stores) w)
    else Some (add_events (stores_made c stores) w).
Proof.
  revert w. induction stores as [|[a v] rest IH]; intros w; simpl.
  - by rewrite add_events_nil.
  - destruct (writable c a); simpl.
    + rewrite IH, emit_add_events, !add_events_app. done.
    + by rewrite add_events_nil.
Qed.

Lemma store_all_some c stores w w' :
  store_all c stores w = Some w' ->
  w' = add_events (stores_made c stores) w.
Proof.
  rewrite store_all_events. unfold except_system.
  destruct (faults c stores); [|by intros [= <-]].
  destruct (ExSystemExceptionFilter _); [by intros [= <-]|done].
Qed.

Lemma except_system_user {A : Type} c (x : A) :
  PreviousMode c <> KernelMode -> except_system c x = Some x.
Proof.
  intros Hm. unfold except_system, ExSystemExceptionFilter.
  destruct (decide _); done.
Qed.

Lemma store_all_user c stores w :
  PreviousMode c <> KernelMode ->
  store_all c stores w = Some (add_events (stores_made c stores) w).
Proof.
  intros Hm. rewrite store_all_events, except_system_user by done.
  by destruct (faults c stores).
Qed.

Lemma faults_all_writable c stores :
  (forall a, writable c a = true) -> faults c stores = false.
Proof.
  intros Hw. unfold faults. induction stores as [|[a v] rest IH]; [done|].
  simpl. rewrite Hw, IH. done.
Qed.

Lemma store_all_writable c stores w :
  (forall a, writable c a = true) ->
  store_all c stores w = Some (add_events (stores_made c stores) w).
Proof.
  intros Hw. by rewrite store_all_events, faults_all_writable.
Qed.

(** A probe is made, and so can raise, only for a caller whose previous
    mode is not kernel mode. *)
Lemma NtRemoveIoCompletion_probes_user c tp code :
  probe_all c (NtRemoveIoCompletion_probes c tp) = Some code ->
  PreviousMode c <> KernelMode.
Proof.
  unfold NtRemoveIoCompletion_probes. destruct (decide _); done.
Qed.

Lemma NtQueryIoCompletion_probes_user c rl code :
  probe_all c (NtQueryIoCompletion_probes c rl) = Some code ->
  PreviousMode c <> KernelMode.
Proof.
  unfold NtQueryIoCompletion_probes. destruct (decide _); done.
Qed.

Lemma stores_made_all_writable c stores :
  (forall a, writable c a = true) ->
  stores_made c stores = map (fun s => EvWrite (fst s) (snd s)) stores.
Proof.
  intros Hw. induction stores as [|[a v] rest IH]; simpl; [done|].
  rewrite Hw, IH. done.
Qed.

(** The capture of an embedded entry. *)
Lemma capture_irp Entry irp w :
  Memory w !! Entry = Some (ObjIrp irp) ->
  NtRemoveIoCompletion_capture Entry w =
    Some (UserApcContext irp, CompletionKey irp, IrpIoStatus irp,
          IoFreeIrp Entry w).
Proof.
  intros Hm. unfold NtRemoveIoCompletion_capture, read_PacketType, read_Irp.
  rewrite Hm. simpl. done.
Qed.

(** The capture of a mini packet. *)
Lemma capture_mini Entry pkt w :
  Memory w !! Entry = Some (ObjMini pkt) ->
  PacketType pkt <> IopCompletionPacketIrp ->
  exists w', IopFreeMiniPacket Entry w = Some w' /\
  NtRemoveIoCompletion_capture Entry w =
    Some (ApcContext pkt, KeyContext pkt,
          {| Status := IoStatus pkt; Information := IoStatusInformation pkt |},
          w').
Proof.
  intros Hm Hty.
  destruct (IopFreeMiniPacket_cases Entry _ w Hm) as (w' & Hrun & _).
  exists w'. split; [done|].
  unfold NtRemoveIoCompletion_capture, read_PacketType, read_MiniPacket.
  rewrite Hm. simpl. destruct (decide _) as [|_]; [done|].
  rewrite Hrun. done.
Qed.

(** The service after an entry was returned, in terms of the capture. *)
Lemma NtRemoveIoCompletion_entry c handle tp t o w Entry q :
  removal_returns c handle tp t o w Entry q ->
  NtRemoveIoCompletion c handle tp t o w =
    '(Apc, Key, Iosb, w1) ←
      NtRemoveIoCompletion_capture Entry
        (set_Queue q (emit EvObReferenceObjectByHandle w));
    w2 ← store_all c (NtRemoveIoCompletion_stores Apc Key Iosb) w1;
    Some (STATUS_SUCCESS, emit EvObDereferenceObject w2).
Proof.
  intros (Hp & Hh & Hk & Ht & Ha). unfold NtRemoveIoCompletion.
  rewrite Hp, Hh. simpl Queue. rewrite Hk.
  destruct (decide _) as [[?|?]|_]; [done|done|].
  destruct (NtRemoveIoCompletion_capture _ _) as [[[[Apc Key] Iosb] w1]|];
    done.
Qed.

(** C2: a removal that returns an entry branches on the packet type of the
    entry.  For an IRP the APC context, the completion key and the I/O
    status block are read from the IRP and the IRP is then released with
    [IoFreeIrp]; for a mini packet the four fields are read from the packet
    and the packet is then released with [IopFreeMiniPacket].  In both
    cases the values stored to the caller are the values read and the
    service returns STATUS_SUCCESS. *)
Theorem NtRemoveIoCompletion_extracts_by_tag c handle tp t o w Entry q obj :
  removal_returns c handle tp t o w Entry q ->
  Memory w !! Entry = Some obj ->
  (forall a, writable c a = true) ->
  let w0 := set_Queue q (emit EvObReferenceObjectByHandle w) in
  match obj with
  | ObjIrp irp =>
      NtRemoveIoCompletion c handle tp t o w =
        Some (STATUS_SUCCESS,
              add_events
                (delivery (UserApcContext irp) (CompletionKey irp)
                   (IrpIoStatus irp))
                (IoFreeIrp Entry w0))
  | ObjMini pkt =>
      PacketType pkt <> IopCompletionPacketIrp ->
      exists w1, IopFreeMiniPacket Entry w0 = Some w1 /\
        NtRemoveIoCompletion c handle tp t o w =
          Some (STATUS_SUCCESS,
                add_events
                  (delivery (ApcContext pkt) (KeyContext pkt)
                     {| Status := IoStatus pkt;
                        Information := IoStatusInformation pkt |})
                  w1)
  end.
Proof.
  intros Hr Hm Hw w0.
  pose proof (NtRemoveIoCompletion_entry c handle tp t o w Entry q Hr) as Hrun.
  fold w0 in Hrun.
  assert (Hm0 : Memory w0 !! Entry = Some obj) by exact Hm.
  destruct obj as [irp|pkt].
  - rewrite (capture_irp Entry irp w0 Hm0) in Hrun.
    rewrite Hrun. cbn [mbind option_bind].
    rewrite (store_all_writable c _ _ Hw). cbn [mbind option_bind].
    rewrite emit_add_events, add_events_app.
    rewrite (stores_made_all_writable c _ Hw). done.
  - intros Hty.
    destruct (capture_mini Entry pkt w0 Hm0 Hty) as (w1 & Hfree & Hcap).
    exists w1. split; [done|].
    rewrite Hrun, Hcap. cbn [mbind option_bind].
    rewrite (store_all_writable c _ _ Hw). cbn [mbind option_bind].
    rewrite emit_add_events, add_events_app.
    rewrite (stores_made_all_writable c _ Hw). done.
Qed.

Lemma NtRemoveIoCompletion_extracts_by_tag_witness :
  exists w',
    NtRemoveIoCompletion kernel_caller STATUS_SUCCESS false 1%nat WaitTimeout
      world_queued = Some (STATUS_SUCCESS, w') /\
    Trace w' =
      [EvObReferenceObjectByHandle; EvIoFreeIrp 8192;
       EvWrite ArgApcContext [11]; EvWrite ArgKeyContext [12];
       EvWrite ArgIoStatusBlock [0; 13]; EvObDereferenceObject].
Proof.
  assert (Hr : removal_returns kernel_caller STATUS_SUCCESS false 1%nat
                 WaitTimeout world_queued 8192
                 (snd (KeRemoveQueue (Queue world_queued) 1%nat WaitTimeout))).
  { repeat split; discriminate. }
  pose proof (NtRemoveIoCompletion_extracts_by_tag kernel_caller
                STATUS_SUCCESS false 1%nat WaitTimeout world_queued 8192 _
                irp_object Hr eq_refl (fun _ => eq_refl)) as H.
  eexists. split; [exact H|reflexivity].
Defined.

Lemma KeRemoveQueue_arrive_blocked q t q1 :
  KeRemoveQueue_arrive q t = (None, q1) ->
  EntryListHead q1 = EntryListHead q.
Proof.
  unfold KeRemoveQueue_arrive. destruct (EntryListHead q) as [|e rest].
  - intros [= <-]. done.
  - destruct (Nat.ltb _ _); [discriminate|]. intros [= <-]. done.
Qed.

(** C6: when the caller has to wait and the wait times out the service
    returns STATUS_TIMEOUT, and when the wait is ended by a user APC it
    returns STATUS_USER_APC.  In both cases the pending entries are the
    same as before, nothing is released (the lookaside lists and kernel
    memory are unchanged, the only calls are the reference and the
    dereference of the object) and nothing is stored to the caller. *)
Theorem NtRemoveIoCompletion_timeout_or_apc c handle tp t o w q1 :
  probe_all c (NtRemoveIoCompletion_probes c tp) = None ->
  NT_SUCCESS handle = true ->
  KeRemoveQueue_arrive (Queue w) t = (None, q1) ->
  exists w',
    NtRemoveIoCompletion c handle tp t o w =
      Some (match o with
            | WaitTimeout => STATUS_TIMEOUT
            | WaitUserApc => STATUS_USER_APC
            end, w') /\
    EntryListHead (Queue w') = EntryListHead (Queue w) /\
    LookasideP w' = LookasideP w /\ LookasideL w' = LookasideL w /\
    Memory w' = Memory w /\
    Trace w' = Trace w ++ [EvObReferenceObjectByHandle; EvObDereferenceObject].
Proof.
  intros Hp Hh Ha. unfold NtRemoveIoCompletion, KeRemoveQueue.
  rewrite Hp, Hh. simpl Queue. rewrite Ha.
  eexists. split.
  - destruct o; simpl; reflexivity.
  - simpl. rewrite <- app_assoc.
    rewrite (KeRemoveQueue_arrive_blocked _ _ _ Ha).
    destruct o; simpl; repeat split.
Qed.

Lemma NtRemoveIoCompletion_timeout_or_apc_witness :
  exists w',
    NtRemoveIoCompletion kernel_caller STATUS_SUCCESS true 1%nat WaitTimeout
      idle_world = Some (STATUS_TIMEOUT, w') /\
    EntryListHead (Queue w') = [] /\
    Trace w' = [EvObReferenceObjectByHandle; EvObDereferenceObject].
Proof.
  destruct (NtRemoveIoCompletion_timeout_or_apc kernel_caller STATUS_SUCCESS
              true 1%nat WaitTimeout idle_world
              (snd (KeRemoveQueue_arrive (Queue idle_world) 1%nat))
              eq_refl eq_refl eq_refl)
    as (w' & Hrun & Hq & _ & _ & _ & Ht).
  exists w'. split; [exact Hrun|]. split; [exact Hq|exact Ht].
Defined.


Lemma capture_release Entry obj w :
  Memory w !! Entry = Some obj -> well_tagged obj ->
  exists Apc Key Iosb w1,
    release Entry obj w = Some w1 /\
    NtRemoveIoCompletion_capture Entry w = Some (Apc, Key, Iosb, w1).
Proof.
  intros Hm Hwt. destruct obj as [irp|pkt].
  - do 4 eexists. split; [reflexivity|]. by apply capture_irp.
  - destruct (capture_mini Entry pkt w Hm Hwt) as (w1 & Hfree & Hcap).
    do 3 eexists. exists w1. split; [exact Hfree|exact Hcap].
Qed.





(** ** Querying the depth *)

(** C8 as worded fails: the output arguments are probed before the
    information class and the length are checked, so a user-mode call with
    an invalid class and a buffer that fails the probe returns the
    exception code, not STATUS_INVALID_INFO_CLASS; valid arguments with a
    handle that does not refer to a port return no depth; and valid
    arguments with a valid handle return no depth when the store to the
    information structure faults. *)
Lemma NtQueryIoCompletion_probe_precedes_checks :
  NtQueryIoCompletion bad_buffer_caller STATUS_SUCCESS 1 4 false world_queued
    = Some (STATUS_ACCESS_VIOLATION, world_queued) /\
  STATUS_ACCESS_VIOLATION <> STATUS_INVALID_INFO_CLASS /\
  NtQueryIoCompletion kernel_caller STATUS_INVALID_HANDLE
    IoCompletionBasicInformation 4 false world_queued
    = Some (STATUS_INVALID_HANDLE,
            add_events [EvObReferenceObjectByHandle] world_queued) /\
  NtQueryIoCompletion faulting_caller STATUS_SUCCESS
    IoCompletionBasicInformation 4 false world_queued
    = Some (STATUS_SUCCESS,
            add_events [EvObReferenceObjectByHandle; EvObDereferenceObject]
              world_queued).
Proof. repeat split. discriminate. Qed.

(** C8, as the code has it: once the probes of the output arguments have
    passed (there are none for a kernel-mode caller), an information class
    other than IoCompletionBasicInformation returns
    STATUS_INVALID_INFO_CLASS and otherwise a length other than the size of
    the information structure returns STATUS_INFO_LENGTH_MISMATCH, in both
    cases with the state untouched and the object not referenced.  With
    both valid, a handle that refers to the port and stores that do not
    fault, the service returns the reference status and stores the number
    of pending entries, and the structure length when asked for. *)
Theorem NtQueryIoCompletion_checks_then_depth c handle cls len rl w :
  probe_all c (NtQueryIoCompletion_probes c rl) = None ->
  (cls <> IoCompletionBasicInformation ->
   NtQueryIoCompletion c handle cls len rl w
     = Some (STATUS_INVALID_INFO_CLASS, w)) /\
  (cls = IoCompletionBasicInformation ->
   len <> sizeof_IO_COMPLETION_BASIC_INFORMATION ->
   NtQueryIoCompletion c handle cls len rl w
     = Some (STATUS_INFO_LENGTH_MISMATCH, w)) /\
  (cls = IoCompletionBasicInformation ->
   len = sizeof_IO_COMPLETION_BASIC_INFORMATION ->
   NT_SUCCESS handle = true ->
   writable c ArgIoCompletionInformation = true ->
   (rl = true -> writable c ArgReturnLength = true) ->
   NtQueryIoCompletion c handle cls len rl w
     = Some (handle,
             add_events
               ([EvObReferenceObjectByHandle; EvObDereferenceObject;
                 EvWrite ArgIoCompletionInformation
                   [Z.of_nat (length (EntryListHead (Queue w)))]]
                  ++ (if rl
                      then [EvWrite ArgReturnLength
                              [sizeof_IO_COMPLETION_BASIC_INFORMATION]]
                      else []))
               w)).
Proof.
  intros Hp. unfold NtQueryIoCompletion. rewrite Hp.
  split; [|split].
  - intros Hc. destruct (decide _); done.
  - intros Hc Hl. destruct (decide _); [done|]. destruct (decide _); done.
  - intros Hc Hl Hh Hw Hwl. destruct (decide _); [done|].
    destruct (decide _); [done|]. rewrite Hh.
    destruct rl; simpl; rewrite Hw; simpl.
    + rewrite (Hwl eq_refl). simpl. unfold add_events, emit. simpl.
      rewrite <- !app_assoc. reflexivity.
    + unfold add_events, emit. simpl. rewrite <- !app_assoc. reflexivity.
Qed.

Lemma NtQueryIoCompletion_checks_then_depth_witness :
  NtQueryIoCompletion kernel_caller STATUS_SUCCESS
    IoCompletionBasicInformation 4 true world_queued
  = Some (STATUS_SUCCESS,
          add_events
            [EvObReferenceObjectByHandle; EvObDereferenceObject;
             EvWrite ArgIoCompletionInformation [2];
             EvWrite ArgReturnLength [4]]
            world_queued).
Proof.
  destruct (NtQueryIoCompletion_checks_then_depth kernel_caller STATUS_SUCCESS
              IoCompletionBasicInformation 4 true world_queued eq_refl)
    as (_ & _ & H).
  exact (H eq_refl eq_refl eq_refl eq_refl (fun _ => eq_refl)).
Defined.

(** ** Deleting the object *)

Lemma freed_irps_app tr1 tr2 :
  freed_irps (tr1 ++ tr2) = freed_irps tr1 ++ freed_irps tr2.
Proof. apply omap_app. Qed.

Lemma freed_irps_quota_calls ty p : freed_irps (quota_calls ty p) = [].
Proof. unfold quota_calls. destruct (decide _); reflexivity. Qed.

Lemma no_stores_quota_calls ty p : no_stores (quota_calls ty p).
Proof.
  unfold quota_calls, no_stores. destruct (decide _); repeat constructor.
Qed.

(** One release, by what it leaves behind. *)
Lemma release_effect e obj w :
  Memory w !! e = Some obj ->
  exists w1 evs, release e obj w = Some w1 /\ Queue w1 = Queue w /\
    Trace w1 = Trace w ++ evs /\
    freed_irps evs = (if is_irp obj then [e] else []) /\ no_stores evs /\
    (Memory w1 = Memory w \/ Memory w1 = delete e (Memory w)) /\
    TotalFrees (LookasideP w1) =
      (if is_irp obj then TotalFrees (LookasideP w)
       else ulong_inc (TotalFrees (LookasideP w))).
Proof.
  intros Hm. destruct obj as [irp|pkt]; simpl.
  - exists (IoFreeIrp e w), [EvIoFreeIrp e]. simpl.
    repeat split; [repeat constructor|by right].
  - destruct (IopFreeMiniPacket_cases e _ w Hm)
      as (w1 & Hrun & Hq & Hc & Hcases).
    exists w1. destruct (_ <? _).
    + destruct Hcases as (_ & _ & Hmem & Htr).
      eexists. split; [done|]. split; [done|]. split; [exact Htr|].
      split; [apply freed_irps_quota_calls|].
      split; [apply no_stores_quota_calls|]. split; [by left|done].
    + destruct Hcases as (_ & Hcases). destruct (_ <? _).
      * destruct Hcases as (_ & Hmem & Htr).
        eexists. split; [done|]. split; [done|]. split; [exact Htr|].
        split; [apply freed_irps_quota_calls|].
        split; [apply no_stores_quota_calls|]. split; [by left|done].
      * destruct Hcases as (_ & Hmem & Htr).
        eexists. split; [done|]. split; [done|]. split; [exact Htr|].
        split; [done|]. split; [repeat constructor|]. split; [by right|done].
Qed.

Lemma entries_live_cons m e obj rest :
  entries_live m ((e, obj) :: rest) ->
  m !! e = Some obj /\ well_tagged obj /\ entries_live m rest /\
  entries_live (delete e m) rest.
Proof.
  intros [Hnd Hall]. simpl in Hnd. apply NoDup_cons in Hnd as [Hnotin Hnd].
  apply Forall_cons in Hall as [[Hm Hwt] Hall]. simpl in *.
  repeat split; try done.
  apply Forall_forall. intros [e' o'] Hin.
  rewrite Forall_forall in Hall. destruct (Hall _ Hin) as [Hm' Hwt'].
  split; [|done]. simpl in *. rewrite lookup_delete_ne; [done|].
  intros <-. apply Hnotin. apply list_elem_of_fmap. by exists (e, o').
Qed.

Lemma IopDeleteIoCompletion_loop_spec entries w :
  entries_live (Memory w) entries ->
  exists w' evs,
    IopDeleteIoCompletion_loop (entries.*1) w = Some w' /\
    release_all entries w = Some w' /\
    Queue w' = Queue w /\ Trace w' = Trace w ++ evs /\
    freed_irps evs = (filter (fun eo => is_irp eo.2 = true) entries).*1 /\
    no_stores evs /\
    TotalFrees (LookasideP w') =
      Nat.iter (length (filter (fun eo => is_irp eo.2 = false) entries))
        ulong_inc (TotalFrees (LookasideP w)).
Proof.
  revert w. induction entries as [|[e obj] rest IH]; intros w Hlive.
  - exists w, []. simpl. rewrite app_nil_r. repeat split. constructor.
  - destruct (entries_live_cons _ _ _ _ Hlive) as (Hm & Hwt & Hl1 & Hl2).
    destruct (release_effect e obj w Hm)
      as (w1 & evs1 & Hrel & Hq1 & Ht1 & Hf1 & Hns1 & Hmem & Hc1).
    assert (Hlive1 : entries_live (Memory w1) rest).
    { destruct Hmem as [-> | ->]; done. }
    destruct (IH w1 Hlive1)
      as (w' & evs & Hloop & Hall & Hq & Ht & Hf & Hns & Hc).
    exists w', (evs1 ++ evs). simpl.
    unfold read_PacketType. rewrite Hm. simpl.
    assert (Hstep : (if decide (ObjPacketType obj = IopCompletionPacketIrp)
                     then Some (IoFreeIrp e w) else IopFreeMiniPacket e w)
                    = Some w1).
    { destruct obj as [irp|pkt]; simpl in *.
      - exact Hrel.
      - destruct (decide _); [done|exact Hrel]. }
    rewrite Hstep, Hrel. simpl. split; [exact Hloop|]. split; [exact Hall|].
    split; [congruence|]. split; [rewrite Ht, Ht1, app_assoc; done|].
    assert (Hns' : no_stores (evs1 ++ evs)) by (apply Forall_app; done).
    rewrite freed_irps_app, Hf1, Hf, Hc, Hc1.
    rewrite !filter_cons. simpl.
    destruct obj as [irp|pkt]; simpl.
    + done.
    + split; [done|]. split; [done|]. apply Nat.iter_swap.
Qed.

(** C3: the delete routine runs the queue down and then releases every
    entry that was pending exactly once and in order, an IRP with
    [IoFreeIrp] and a mini packet with [IopFreeMiniPacket]; it stores no
    field anywhere and always returns.  The IRPs handed to [IoFreeIrp] are
    the pending IRPs, each once; the per-processor free counter advances
    once per pending mini packet.  With nothing pending nothing is
    released. *)
Theorem IopDeleteIoCompletion_releases_every_entry w entries :
  entries.*1 = EntryListHead (Queue w) ->
  entries_live (Memory w) entries ->
  exists w' evs,
    IopDeleteIoCompletion w = Some w' /\
    release_all entries (set_Queue (KeRundownQueue (Queue w)).2 w) = Some w' /\
    EntryListHead (Queue w') = [] /\
    Trace w' = Trace w ++ evs /\
    freed_irps evs = (filter (fun eo => is_irp eo.2 = true) entries).*1 /\
    no_stores evs /\
    TotalFrees (LookasideP w') =
      Nat.iter (length (filter (fun eo => is_irp eo.2 = false) entries))
        ulong_inc (TotalFrees (LookasideP w)) /\
    (entries = [] ->
     evs = [] /\ LookasideP w' = LookasideP w /\
     LookasideL w' = LookasideL w /\ Memory w' = Memory w).
Proof.
  intros Hent Hlive.
  set (w0 := set_Queue (KeRundownQueue (Queue w)).2 w).
  assert (Hlive0 : entries_live (Memory w0) entries) by exact Hlive.
  destruct (IopDeleteIoCompletion_loop_spec entries w0 Hlive0)
    as (w' & evs & Hloop & Hall & Hq & Ht & Hf & Hns & Hc).
  assert (Hrun : IopDeleteIoCompletion w =
                 match entries.*1 with
                 | [] => Some w0
                 | _ :: _ => IopDeleteIoCompletion_loop (entries.*1) w0
                 end).
  { unfold IopDeleteIoCompletion, KeRundownQueue. rewrite Hent. reflexivity. }
  rewrite Hrun. clear Hrun.
  destruct entries as [|[e obj] rest].
  - simpl in Hall. injection Hall as <-. exists w0, [].
    rewrite app_nil_r. repeat split. constructor.
  - exists w', evs. change (((e, obj) :: rest).*1) with (e :: rest.*1) in *.
    rewrite Hloop, Hq. repeat split; done.
Qed.

Lemma IopDeleteIoCompletion_releases_every_entry_witness :
  exists w',
    IopDeleteIoCompletion world_queued = Some w' /\
    EntryListHead (Queue w') = [] /\
    freed_irps (Trace w') = [8192] /\
    TotalFrees (LookasideP w') = 1.
Proof.
  destruct (IopDeleteIoCompletion_releases_every_entry world_queued
              [(8192, irp_object); (4096, quota_packet)])
    as (w' & evs & Hrun & _ & Hq & Ht & Hf & _ & Hc & _).
  - reflexivity.
  - split.
    + simpl. apply NoDup_cons. split; [apply not_elem_of_cons; split;
        [discriminate|apply not_elem_of_nil]|].
      apply NoDup_singleton.
    + repeat constructor; simpl; discriminate.
  - exists w'. split; [exact Hrun|]. split; [exact Hq|].
    rewrite Ht, Hc. simpl. rewrite Hf. split; reflexivity.
Defined.

(** ** Reuse of a freed packet *)

(** C7: from a pool whose two tiers are empty and whose per-processor tier
    has a positive depth limit, a post that obtains the packet [p] from the
    general pool, the free of [p], and a second post: the second post
    queues the very address [p], taken from the per-processor tier without
    a call to the general pool, and each call advances the counter of its
    kind once (TotalAllocates at each allocation, TotalFrees at the
    free). *)
Theorem pool_round_trip_reuses_packet
  Key Apc St Info Quota p Key' Apc' St' Info' Quota' pool' w :
  ListHead (LookasideP w) = [] -> ListHead (LookasideL w) = [] ->
  0 < Depth (LookasideP w) -> p <> NULL ->
  exists w1 w2 w3,
    IoSetIoCompletion Key Apc St Info Quota (PoolBlock p) w
      = (STATUS_SUCCESS, w1) /\
    IopFreeMiniPacket p w1 = Some w2 /\
    IoSetIoCompletion Key' Apc' St' Info' Quota' pool' w2
      = (STATUS_SUCCESS, w3) /\
    Queue w1 = KeInsertQueue (Queue w) p /\
    ListHead (LookasideP w2) = [p] /\
    Queue w3 = KeInsertQueue (Queue w2) p /\
    Trace w3 = Trace w2 ++ [EvKeInsertQueue p] /\
    ListHead (LookasideP w3) = [] /\
    TotalAllocates (LookasideP w1)
      = ulong_inc (TotalAllocates (LookasideP w)) /\
    TotalFrees (LookasideP w1) = TotalFrees (LookasideP w) /\
    TotalAllocates (LookasideP w2) = TotalAllocates (LookasideP w1) /\
    TotalFrees (LookasideP w2) = ulong_inc (TotalFrees (LookasideP w1)) /\
    TotalAllocates (LookasideP w3)
      = ulong_inc (TotalAllocates (LookasideP w2)) /\
    TotalFrees (LookasideP w3) = TotalFrees (LookasideP w2) /\
    TotalAllocates (LookasideL w3)
      = ulong_inc (TotalAllocates (LookasideL w)) /\
    TotalFrees (LookasideL w3) = TotalFrees (LookasideL w).
Proof.
  intros HP HL Hd Hp.
  destruct w as [[lp dp ta am tf fm] [ll dl ta' am' tf' fm'] q m tr].
  simpl in *. subst lp ll.
  unfold IoSetIoCompletion, IoSetIoCompletion_allocate. simpl.
  destruct (decide (NULL = NULL)) as [_|]; [|done].
  assert (Hfirst : forall ty ev,
    exists w1,
      w1 = {| LookasideP := {| ListHead := []; Depth := dp;
                TotalAllocates := ulong_inc ta;
                AllocateMisses := ulong_inc am;
                TotalFrees := tf; FreeMisses := fm |};
              LookasideL := {| ListHead := []; Depth := dl;
                TotalAllocates := ulong_inc ta';
                AllocateMisses := ulong_inc am';
                TotalFrees := tf'; FreeMisses := fm' |};
              Queue := KeInsertQueue q p;
              Memory := <[p := ObjMini {| PacketType := ty;
                            KeyContext := Key; ApcContext := Apc;
                            IoStatus := St;
                            IoStatusInformation := Info |}]> m;
              Trace := (tr ++ [ev]) ++ [EvKeInsertQueue p] |} /\
      exists w2 w3,
        IopFreeMiniPacket p w1 = Some w2 /\
        IoSetIoCompletion Key' Apc' St' Info' Quota' pool' w2
          = (STATUS_SUCCESS, w3) /\
        Queue w1 = KeInsertQueue q p /\
        ListHead (LookasideP w2) = [p] /\
        Queue w3 = KeInsertQueue (Queue w2) p /\
        Trace w3 = Trace w2 ++ [EvKeInsertQueue p] /\
        ListHead (LookasideP w3) = [] /\
        TotalAllocates (LookasideP w1) = ulong_inc ta /\
        TotalFrees (LookasideP w1) = tf /\
        TotalAllocates (LookasideP w2) = TotalAllocates (LookasideP w1) /\
        TotalFrees (LookasideP w2) = ulong_inc (TotalFrees (LookasideP w1)) /\
        TotalAllocates (LookasideP w3)
          = ulong_inc (TotalAllocates (LookasideP w2)) /\
        TotalFrees (LookasideP w3) = TotalFrees (LookasideP w2) /\
        TotalAllocates (LookasideL w3) = ulong_inc ta' /\
        TotalFrees (LookasideL w3) = tf').
  { intros ty ev. eexists. split; [reflexivity|].
    unfold IopFreeMiniPacket, read_PacketType. simpl.
    change (ExQueryDepthSList []) with 0.
    destruct (Z.leb_spec dp 0) as [Hle|_]; [lia|].
    rewrite lookup_insert_eq. simpl.
    rewrite return_quota_if_charged_spec. simpl.
    eexists. eexists. split; [reflexivity|].
    unfold IoSetIoCompletion, IoSetIoCompletion_allocate. simpl.
    destruct (decide (p = NULL)) as [|_]; [done|].
    destruct (decide (p <> NULL)) as [_|]; [|done]. simpl.
    repeat split. }
  destruct Quota; simpl;
    (destruct (decide (p <> NULL)) as [_|]; [|done]); simpl.
  - destruct (Hfirst IopCompletionPacketQuota (EvExAllocatePoolWithQuotaTag p))
      as (w1 & -> & w2 & w3 & H).
    eexists. exists w2, w3. split; [reflexivity|]. exact H.
  - destruct (Hfirst IopCompletionPacketMini
                (EvExAllocatePoolWithTagPriority p))
      as (w1 & -> & w2 & w3 & H).
    eexists. exists w2, w3. split; [reflexivity|]. exact H.
Qed.

Lemma pool_round_trip_reuses_packet_witness :
  exists w1 w2 w3,
    IoSetIoCompletion 7 8 0 512 true (PoolBlock 4096) idle_world
      = (STATUS_SUCCESS, w1) /\
    IopFreeMiniPacket 4096 w1 = Some w2 /\
    IoSetIoCompletion 9 10 0 64 false PoolExhausted w2
      = (STATUS_SUCCESS, w3) /\
    EntryListHead (Queue w3) = [4096; 4096] /\
    TotalAllocates (LookasideP w3) = 2 /\ TotalFrees (LookasideP w3) = 1.
Proof.
  destruct (pool_round_trip_reuses_packet 7 8 0 512 true 4096 9 10 0 64 false
              PoolExhausted idle_world)
    as (w1 & w2 & w3 & H1 & H2 & H3 & Hq1 & _ & Hq3 & _ & _ & Ha1 & Hf1 &
        Ha2 & Hf2 & Ha3 & Hf3 & _).
  - reflexivity.
  - reflexivity.
  - reflexivity.
  - discriminate.
  - exists w1, w2, w3. split; [exact H1|]. split; [exact H2|].
    split; [exact H3|].
    assert (Hq2 : Queue w2 = Queue w1).
    { destruct (IopFreeMiniPacket_cases 4096
                  (ObjMini {| PacketType := IopCompletionPacketQuota;
                              KeyContext := 7; ApcContext := 8;
                              IoStatus := 0; IoStatusInformation := 512 |}) w1)
        as (w2' & Hrun & Hq & _).
      - injection H1 as <-. reflexivity.
      - rewrite H2 in Hrun. injection Hrun as <-. exact Hq. }
    rewrite Hq3, Hq2, Hq1, Ha3, Ha2, Ha1, Hf3, Hf2, Hf1. repeat split.
Defined.

(** ** Quota accounting *)

Lemma quota_account_app p tr evs :
  quota_account p (tr ++ evs) = fold_left (quota_step p) evs (quota_account p tr).
Proof. unfold quota_account. apply fold_left_app. Qed.

Lemma quota_account_neutral p tr evs :
  forallb quota_neutral evs = true ->
  quota_account p (tr ++ evs) = quota_account p tr.
Proof.
  rewrite quota_account_app. generalize (quota_account p tr).
  assert (IH0 : forall a, forallb quota_neutral evs = true ->
                          fold_left (quota_step p) evs a = a);
    [|intros a Ha; by apply IH0].
  induction evs as [|ev evs IH]; intros a Hn; [done|].
  cbn [fold_left forallb] in *.
  apply andb_prop in Hn as [Hev Hn]. rewrite (IH _ Hn).
  destruct ev; simpl in *; done.
Qed.

Lemma stores_made_neutral c stores :
  forallb quota_neutral (stores_made c stores) = true.
Proof.
  induction stores as [|[a v] rest IH]; simpl; [done|].
  destruct (writable c a); simpl; done.
Qed.

Lemma kernel_address_not_status p :
  kernel_address p ->
  p <> NULL /\ p <> STATUS_TIMEOUT /\ p <> STATUS_USER_APC.
Proof.
  unfold kernel_address, NULL, STATUS_TIMEOUT, STATUS_USER_APC. lia.
Qed.

(** A release either gives the object back to its allocator or pushes it
    on one of the free lists. *)
Lemma release_cases e obj w :
  Memory w !! e = Some obj -> well_tagged obj ->
  exists w1, release e obj w = Some w1 /\ Queue w1 = Queue w /\
    ((forall rest, tracked rest w1 = tracked rest w) /\
     Memory w1 = delete e (Memory w) /\
     ((is_irp obj = true /\ Trace w1 = Trace w ++ [EvIoFreeIrp e]) \/
      Trace w1 = Trace w ++ [EvExFreePool e])
     \/
     (forall rest, tracked rest w1 ≡ₚ e :: tracked rest w) /\
     Memory w1 = Memory w /\
     Trace w1 = Trace w ++ quota_calls (ObjPacketType obj) e).
Proof.
  intros Hm Hwt. destruct obj as [irp|pkt]; simpl.
  - eexists. split; [reflexivity|]. split; [reflexivity|]. left.
    split; [reflexivity|]. split; [reflexivity|]. left. done.
  - destruct (IopFreeMiniPacket_cases e _ w Hm)
      as (w1 & Hrun & Hq & _ & Hcases).
    exists w1. split; [done|]. split; [done|]. unfold tracked.
    destruct (_ <? _).
    + destruct Hcases as (HP & HL & Hmem & Htr). right.
      rewrite HP, HL. split; [done|]. done.
    + destruct Hcases as (HP & Hcases). destruct (_ <? _).
      * destruct Hcases as (HL & Hmem & Htr). right.
        rewrite HP, HL. split; [|done]. intros rest. simpl.
        symmetry. apply Permutation_middle.
      * destruct Hcases as (HL & Hmem & Htr). left.
        rewrite HP, HL. split; [done|]. split; [done|]. by right.
Qed.

Lemma quota_step_other p q a ev :
  p <> q ->
  ev = EvIoFreeIrp q \/ ev = EvExFreePool q \/ ev = EvExReturnPoolQuota q ->
  quota_step p a ev = a.
Proof.
  intros Hne [-> | [-> | ->]]; simpl; [done| |];
    destruct (decide (q = p)); congruence.
Qed.

Lemma release_preserves e rest obj w :
  quota_inv (e :: rest) w -> Memory w !! e = Some obj ->
  exists w1, release e obj w = Some w1 /\ Queue w1 = Queue w /\
             quota_inv rest w1.
Proof.
  intros (Hnd & Hlive & Hacc) Hm. fold (tracked (e :: rest) w) in Hnd, Hlive.
  assert (Hperm : tracked (e :: rest) w ≡ₚ e :: tracked rest w).
  { unfold tracked. rewrite app_assoc, <- Permutation_middle.
    by rewrite <- app_assoc. }
  assert (Hwt : well_tagged obj).
  { destruct (Hlive e) as (_ & obj' & Hm' & Hwt').
    - rewrite Hperm. left.
    - congruence. }
  rewrite Hperm in Hnd. apply NoDup_cons in Hnd as [Hnotin Hnd].
  assert (Hnotrest : e ∉ rest).
  { intros Hin. apply Hnotin. unfold tracked.
    rewrite !elem_of_app. auto. }
  destruct (release_cases e obj w Hm Hwt) as (w1 & Hrel & Hq & Hcases).
  exists w1. split; [done|]. split; [done|].
  unfold quota_inv. fold (tracked rest w1).
  destruct Hcases as [(Htk & Hmem & Htr) | (Htk & Hmem & Htr)].
  - (* the object went back to its allocator *)
    rewrite Htk, Hmem. split; [done|]. split.
    + intros p Hp. assert (p <> e) by (intros ->; done).
      destruct (Hlive p) as (Hk & obj' & Hm' & Hwt').
      { rewrite Hperm. by right. }
      split; [done|]. exists obj'. rewrite lookup_delete_ne; done.
    + intros p. destruct (Hacc p) as [Hbal Hout].
      destruct (decide (p = e)) as [->|Hne].
      * rewrite lookup_delete_eq.
        assert (Hafter : balanced (quota_account e (Trace w1)) /\
                         outstanding (quota_account e (Trace w1)) = false).
        { destruct Htr as [(Hirp & ->) | ->].
          - rewrite quota_account_neutral by done. split; [done|].
            destruct (outstanding _) eqn:Ho; [|done].
            destruct Hout as [Hout _]. destruct (Hout eq_refl)
              as (_ & obj' & Hm' & Hty).
            rewrite Hm in Hm'. injection Hm' as <-.
            destruct obj; simpl in *; done.
          - rewrite quota_account_app. simpl.
            destruct (decide (e = e)); [|done].
            destruct (quota_account e (Trace w)) as [c r o].
            unfold balanced in *. simpl in *.
            destruct o; simpl; split; (done || lia). }
        destruct Hafter as [Hb Ho]. split; [done|]. rewrite Ho.
        split; [done|]. intros (_ & obj' & Hm' & _). done.
      * rewrite lookup_delete_ne by done.
        assert (Hsame : quota_account p (Trace w1) = quota_account p (Trace w)).
        { destruct Htr as [(_ & ->) | ->]; rewrite quota_account_app;
            cbn [fold_left];
            (apply quota_step_other with (q := e);
             [done|by (left + (right; left))]). }
        rewrite Hsame. split; [done|]. rewrite Hout.
        split; intros (Hin & Hobj); (split; [|done]).
        { apply elem_of_cons in Hin as [?|?]; done. }
        { by right. }
  - (* the object was pushed on a free list *)
    rewrite Hmem. split.
    + rewrite Htk. apply NoDup_cons. done.
    + split.
      * intros p Hp. apply Hlive. rewrite Hperm, <- Htk. done.
      * intros p. destruct (Hacc p) as [Hbal Hout].
        destruct (decide (p = e)) as [->|Hne].
        -- assert (Hafter : balanced (quota_account e (Trace w1)) /\
                            outstanding (quota_account e (Trace w1)) = false).
           { rewrite Htr. unfold quota_calls.
             destruct (decide (ObjPacketType obj = IopCompletionPacketQuota))
               as [Hty|Hty].
             - rewrite quota_account_app. simpl.
               destruct (decide (e = e)); [|done].
               assert (Ho : outstanding (quota_account e (Trace w)) = true).
               { apply Hout. split; [left|]. by exists obj. }
               unfold balanced in *. rewrite Ho in Hbal. simpl.
               split; [lia|done].
             - rewrite app_nil_r. split; [done|].
               destruct (outstanding _) eqn:Ho; [|done].
               destruct Hout as [Hout _]. destruct (Hout eq_refl)
                 as (_ & obj' & Hm' & Hty').
               rewrite Hm in Hm'. injection Hm' as <-. done. }
           destruct Hafter as [Hb Ho]. split; [done|]. rewrite Ho.
           split; [done|]. intros (Hin & _). done.
        -- assert (Hsame : quota_account p (Trace w1)
                           = quota_account p (Trace w)).
           { rewrite Htr. unfold quota_calls. destruct (decide _).
             - rewrite quota_account_app. cbn [fold_left].
               apply quota_step_other with (q := e); [done|by right; right].
             - by rewrite app_nil_r. }
           rewrite Hsame. split; [done|]. rewrite Hout.
           split; intros (Hin & Hobj); (split; [|done]).
        { apply elem_of_cons in Hin as [?|?]; done. }
        { by right. }
Qed.

Lemma quota_step_charge_other p q a :
  p <> q -> quota_step p a (EvExAllocatePoolWithQuotaTag q) = a.
Proof. intros Hne. simpl. destruct (decide (q = p)); congruence. Qed.

(** Queueing a packet [p] whose fields were just installed: either [p]
    is untagged and no pool quota was touched, or [p] is tagged
    quota-charged and was just charged. *)
Lemma insert_packet_preserves pend p obj evs w w' :
  quota_inv pend w ->
  NoDup (tracked (pend ++ [p]) w') ->
  (forall x, x ∈ tracked (pend ++ [p]) w' -> x = p \/ x ∈ tracked pend w) ->
  kernel_address p -> p ∉ pend -> well_tagged obj ->
  Memory w' = <[p := obj]> (Memory w) ->
  Trace w' = Trace w ++ evs ->
  (ObjPacketType obj <> IopCompletionPacketQuota /\
   forallb quota_neutral evs = true) \/
  (ObjPacketType obj = IopCompletionPacketQuota /\
   evs = [EvExAllocatePoolWithQuotaTag p; EvKeInsertQueue p]) ->
  quota_inv (pend ++ [p]) w'.
Proof.
  intros (Hnd & Hlive & Hacc) Hnd' Hsub Hk Hnotin Hty Hmem Htr Hkind.
  fold (tracked pend w) in Hnd, Hlive.
  unfold quota_inv. fold (tracked (pend ++ [p]) w').
  split; [done|]. rewrite Hmem, Htr. split.
  - intros x Hx. destruct (decide (x = p)) as [->|Hne].
    + split; [done|]. exists obj. rewrite lookup_insert_eq. done.
    + destruct (Hsub x Hx) as [?|Hold]; [done|].
      rewrite lookup_insert_ne by done. by apply Hlive.
  - intros x. destruct (Hacc x) as [Hbal Hout].
    destruct (decide (x = p)) as [->|Hne].
    + assert (Ho : outstanding (quota_account p (Trace w)) = false).
      { destruct (outstanding _) eqn:Ho; [|done].
        destruct Hout as [Hout _]. destruct (Hout eq_refl) as (? & _). done. }
      rewrite lookup_insert_eq.
      destruct Hkind as [(Hmini & Hneutral) | (Hquota & ->)].
      * rewrite quota_account_neutral by done. split; [done|].
        rewrite Ho. split; [done|].
        intros (_ & obj' & [= <-] & Hq). done.
      * rewrite quota_account_app. cbn [fold_left quota_step].
        destruct (decide (p = p)); [|done]. cbn [quota_step].
        unfold balanced in *. rewrite Ho in Hbal. simpl. split; [lia|].
        split; [|done]. intros _. split.
        -- apply elem_of_app. right. left.
        -- exists obj. done.
    + rewrite lookup_insert_ne by done.
      assert (Hsame : quota_account x (Trace w ++ evs)
                      = quota_account x (Trace w)).
      { destruct Hkind as [(_ & Hneutral) | (_ & ->)].
        - by apply quota_account_neutral.
        - rewrite quota_account_app. cbn [fold_left].
          rewrite quota_step_charge_other by done. done. }
      rewrite Hsame. split; [done|]. rewrite Hout.
      split; intros (Hin & Hobj); (split; [|done]).
      * apply elem_of_app. by left.
      * apply elem_of_app in Hin as [?|Hin]; [done|].
        apply list_elem_of_singleton in Hin. done.
Qed.

Lemma KeInsertQueue_no_waiters q e :
  WaitListHead q = [] ->
  EntryListHead (KeInsertQueue q e) = EntryListHead q ++ [e] /\
  WaitListHead (KeInsertQueue q e) = [].
Proof. intros Hw. unfold KeInsertQueue. rewrite Hw. done. Qed.

Lemma perm_move_end (l1 l2 l3 : list PVOID) p :
  l1 ++ l2 ++ l3 ++ [p] ≡ₚ p :: l1 ++ l2 ++ l3.
Proof.
  rewrite !app_assoc. rewrite <- Permutation_cons_append. done.
Qed.

(** Calls that touch neither the lists, nor memory, nor any quota. *)
Lemma quota_inv_neutral pend evs w w' :
  quota_inv pend w ->
  ListHead (LookasideP w') = ListHead (LookasideP w) ->
  ListHead (LookasideL w') = ListHead (LookasideL w) ->
  Memory w' = Memory w -> Trace w' = Trace w ++ evs ->
  forallb quota_neutral evs = true ->
  quota_inv pend w'.
Proof.
  intros (Hnd & Hlive & Hacc) HP HL Hm Ht Hn. unfold quota_inv.
  rewrite HP, HL, Hm, Ht. split; [done|]. split; [done|].
  intros p. rewrite quota_account_neutral by done. apply Hacc.
Qed.

Lemma quota_inv_fresh pend (p : PVOID) w :
  quota_inv pend w -> Memory w !! p = None -> p ∉ tracked pend w.
Proof.
  intros (_ & Hlive & _) Hm Hin.
  destruct (Hlive p Hin) as (_ & obj & Hm' & _).
  rewrite Hm in Hm'. discriminate Hm'.
Qed.

(** Queueing an object that was not pending. *)
Lemma queue_insert_preserves w p obj evs w' :
  world_inv w ->
  Queue w' = KeInsertQueue (Queue w) p ->
  Memory w' = <[p := obj]> (Memory w) ->
  Trace w' = Trace w ++ evs ->
  kernel_address p -> well_tagged obj ->
  (tracked (EntryListHead (Queue w) ++ [p]) w'
     ≡ₚ tracked (EntryListHead (Queue w)) w /\
   p ∉ EntryListHead (Queue w)) \/
  (tracked (EntryListHead (Queue w) ++ [p]) w'
     ≡ₚ p :: tracked (EntryListHead (Queue w)) w /\
   Memory w !! p = None) ->
  (ObjPacketType obj <> IopCompletionPacketQuota /\
   forallb quota_neutral evs = true) \/
  (ObjPacketType obj = IopCompletionPacketQuota /\
   evs = [EvExAllocatePoolWithQuotaTag p; EvKeInsertQueue p]) ->
  world_inv w'.
Proof.
  intros [Hinv Hwait] Hq Hm Ht Hk Hty Hperm Hkind.
  pose proof Hinv as (Hnd & Hlive & _).
  fold (tracked (EntryListHead (Queue w)) w) in Hnd, Hlive.
  destruct (KeInsertQueue_no_waiters (Queue w) p Hwait) as [He Hw'].
  unfold world_inv. rewrite Hq, He, Hw'. split; [|done].
  assert (Hfr : Memory w !! p = None ->
                p ∉ tracked (EntryListHead (Queue w)) w).
  { by apply quota_inv_fresh. }
  apply insert_packet_preserves with (obj := obj) (evs := evs) (w := w);
    try done.
  - destruct Hperm as [[-> _] | [-> Hnone]]; [done|].
    apply NoDup_cons. split; [by apply Hfr|done].
  - intros x Hx. destruct Hperm as [[Hp _] | [Hp _]]; rewrite Hp in Hx.
    + by right.
    + by apply elem_of_cons in Hx.
  - destruct Hperm as [[_ Hn] | [_ Hnone]]; [done|].
    intros Hin. apply (Hfr Hnone). unfold tracked.
    rewrite !elem_of_app. auto.
Qed.

Lemma IoSetIoCompletion_preserves Key Apc St Info Quota pool w :
  world_inv w -> pool_fresh w pool ->
  world_inv (IoSetIoCompletion Key Apc St Info Quota pool w).2.
Proof.
  intros [Hinv Hwait] Hfresh.
  pose proof Hinv as (Hnd & Hlive & _).
  fold (tracked (EntryListHead (Queue w)) w) in Hnd, Hlive.
  pose proof (queue_insert_preserves w) as Hins.
  specialize (fun p obj evs w' => Hins p obj evs w' (conj Hinv Hwait)).
  unfold IoSetIoCompletion, IoSetIoCompletion_allocate.
  destruct w as [[lp dp ta am tf fm] [ll dl ta' am' tf' fm'] q m tr].
  unfold tracked in *. simpl in *.
  destruct lp as [|a lp]; simpl.
  - destruct (decide (NULL = NULL)) as [_|]; [|done].
    destruct ll as [|b ll]; simpl.
    + destruct (decide (NULL = NULL)) as [_|]; [|done].
      destruct Quota, pool as [p|]; simpl in *.
      * destruct Hfresh as [Hk Hnone].
        destruct (kernel_address_not_status p Hk) as (Hnn & _).
        destruct (decide (p <> NULL)); [|done]. simpl.
        eapply Hins; simpl; try done.
        -- by rewrite <- app_assoc.
        -- right. split; [|done]. rewrite <- Permutation_cons_append. done.
        -- right. done.
      * destruct (decide (NULL <> NULL)); [done|]. simpl.
        split; [|done].
        eapply quota_inv_neutral with (evs := [_]); simpl; try done.
      * destruct Hfresh as [Hk Hnone].
        destruct (kernel_address_not_status p Hk) as (Hnn & _).
        destruct (decide (p <> NULL)); [|done]. simpl.
        eapply Hins; simpl; try done.
        -- by rewrite <- app_assoc.
        -- right. split; [|done]. rewrite <- Permutation_cons_append. done.
        -- left. done.
      * destruct (decide (NULL <> NULL)); [done|]. simpl.
        split; [|done].
        eapply quota_inv_neutral with (evs := [_]); simpl; try done.
    + destruct (Hlive b) as (Hk & _); [left|].
      destruct (kernel_address_not_status b Hk) as (Hnn & _).
      destruct (decide (b = NULL)); [done|]. simpl.
      destruct (decide (b <> NULL)); [|done]. simpl.
      eapply Hins with (evs := [_]); simpl; try done.
      * left. split.
        -- apply (perm_move_end [] ll (EntryListHead q) b).
        -- apply NoDup_cons in Hnd as [Hn _]. intros Hin. apply Hn.
           apply elem_of_app. by right.
      * left. done.
  - destruct (Hlive a) as (Hk & _); [left|].
    destruct (kernel_address_not_status a Hk) as (Hnn & _).
    destruct (decide (a = NULL)); [done|]. simpl.
    destruct (decide (a <> NULL)); [|done]. simpl.
    eapply Hins with (evs := [_]); simpl; try done.
    + left. split.
      * apply (perm_move_end lp ll (EntryListHead q) a).
      * apply NoDup_cons in Hnd as [Hn _]. intros Hin. apply Hn.
        rewrite !elem_of_app. auto.
    + left. done.
Qed.

Lemma remove_thread_self t : remove_thread t [t] = [].
Proof.
  unfold remove_thread. rewrite filter_cons.
  destruct (decide (t <> t)); done.
Qed.

Lemma KeRemoveQueue_cases q t o :
  WaitListHead q = [] ->
  WaitListHead (KeRemoveQueue q t o).2 = [] /\
  ((exists rest, EntryListHead q = (KeRemoveQueue q t o).1 :: rest /\
                 EntryListHead (KeRemoveQueue q t o).2 = rest) \/
   ((KeRemoveQueue q t o).1 = wait_status o /\
    EntryListHead (KeRemoveQueue q t o).2 = EntryListHead q)).
Proof.
  intros Hw. unfold KeRemoveQueue, KeRemoveQueue_arrive. rewrite Hw.
  destruct (EntryListHead q) as [|e rest]; simpl.
  - rewrite remove_thread_self. split; [done|]. by right.
  - destruct (Nat.ltb _ _); simpl.
    + split; [done|]. left. by exists rest.
    + rewrite remove_thread_self. split; [done|]. by right.
Qed.

Lemma world_inv_add_events evs w :
  forallb quota_neutral evs = true -> world_inv w ->
  world_inv (add_events evs w).
Proof.
  intros Hn [Hinv Hwait]. split; [|done].
  by apply quota_inv_neutral with (w := w) (evs := evs).
Qed.

(** A removal under the invariant: either it returns without having
    removed an entry, or it has released the head entry and what is left
    is the block of stores and the dereference. *)
Lemma NtRemoveIoCompletion_under_inv c handle tp t o w :
  world_inv w ->
  (exists St w',
     NtRemoveIoCompletion c handle tp t o w = Some (St, w') /\
     world_inv w') \/
  (exists stores w1,
     world_inv w1 /\
     NtRemoveIoCompletion c handle tp t o w =
       w2 ← store_all c stores w1;
       Some (STATUS_SUCCESS, emit EvObDereferenceObject w2)).
Proof.
  intros [Hinv Hwait]. unfold NtRemoveIoCompletion.
  destruct (probe_all _ _) as [code|] eqn:Hprobe.
  { left. exists code, w. split; [|done]. apply except_system_user.
    by apply NtRemoveIoCompletion_probes_user in Hprobe. }
  destruct (NT_SUCCESS handle).
  2:{ left. eexists _, _. split; [reflexivity|]. split; [|done].
      eapply quota_inv_neutral with (evs := [_]); simpl; done. }
  simpl Queue.
  destruct (KeRemoveQueue_cases (Queue w) t o Hwait) as [Hw' Hcases].
  destruct (KeRemoveQueue (Queue w) t o) as [Entry q'] eqn:Hk.
  simpl in Hw', Hcases.
  destruct Hcases as [(rest & He & Hrest) | (-> & He)].
  - pose proof Hinv as (_ & Hlive & _). rewrite He in Hlive, Hinv.
    destruct (Hlive Entry) as (Hka & obj & Hm & Hwt).
    { rewrite !elem_of_app. right. right. left. }
    destruct (kernel_address_not_status Entry Hka) as (_ & Hnt & Hna).
    destruct (decide _) as [[?|?]|_]; [done|done|].
    set (w0 := set_Queue q' (emit EvObReferenceObjectByHandle w)).
    assert (Hinv0 : quota_inv (Entry :: rest) w0).
    { eapply quota_inv_neutral with (evs := [_]); simpl; done. }
    assert (Hm0 : Memory w0 !! Entry = Some obj) by exact Hm.
    destruct (capture_release Entry obj w0 Hm0 Hwt)
      as (Apc & Key & Iosb & w1 & Hrel & Hcap).
    destruct (release_preserves Entry rest obj w0 Hinv0 Hm0)
      as (w1' & Hrel' & Hq1 & Hinv1).
    rewrite Hrel in Hrel'. injection Hrel' as <-.
    rewrite Hcap. cbn [mbind option_bind].
    right. exists (NtRemoveIoCompletion_stores Apc Key Iosb), w1.
    split; [|done]. split; rewrite Hq1; simpl; [|done]. by rewrite Hrest.
  - left. destruct (decide _) as [_|Hno].
    + eexists _, _. split; [reflexivity|]. split; simpl; [|done].
      rewrite He.
      apply quota_inv_neutral
        with (w := w)
             (evs := [EvObReferenceObjectByHandle; EvObDereferenceObject]);
        simpl; try done.
      by rewrite <- app_assoc.
    + exfalso. apply Hno. destruct o; auto.
Qed.

(** A removal that returns keeps the invariant. *)
Lemma NtRemoveIoCompletion_preserves c handle tp t o w St w' :
  world_inv w ->
  NtRemoveIoCompletion c handle tp t o w = Some (St, w') ->
  world_inv w'.
Proof.
  intros Hinv Hrun.
  destruct (NtRemoveIoCompletion_under_inv c handle tp t o w Hinv)
    as [(St1 & w1 & Hrun1 & Hinv1) | (stores & w1 & Hinv1 & Hrun1)];
    rewrite Hrun1 in Hrun.
  - by injection Hrun as <- <-.
  - destruct (store_all c stores w1) as [w2|] eqn:Hst; [|done].
    cbn [mbind option_bind] in Hrun. injection Hrun as <- <-.
    apply store_all_some in Hst as ->.
    rewrite emit_add_events.
    apply world_inv_add_events; [done|].
    apply world_inv_add_events; [apply stores_made_neutral|done].
Qed.

(** Under the invariant a removal returns for every caller whose previous
    mode is not kernel mode, and for every caller whose stores do not
    fault. *)
Lemma NtRemoveIoCompletion_returns c handle tp t o w :
  world_inv w ->
  PreviousMode c <> KernelMode \/ (forall a, writable c a = true) ->
  exists St w', NtRemoveIoCompletion c handle tp t o w = Some (St, w').
Proof.
  intros Hinv Hc.
  destruct (NtRemoveIoCompletion_under_inv c handle tp t o w Hinv)
    as [(St1 & w1 & Hrun1 & _) | (stores & w1 & _ & Hrun1)].
  - by exists St1, w1.
  - rewrite Hrun1.
    assert (Hst : store_all c stores w1
                  = Some (add_events (stores_made c stores) w1)).
    { destruct Hc; [by apply store_all_user|by apply store_all_writable]. }
    rewrite Hst. cbn [mbind option_bind]. by eexists _, _.
Qed.

(** The delete routine under the invariant: every pending entry is
    released and nothing is left charged. *)
Lemma IopDeleteIoCompletion_loop_preserves pend w :
  quota_inv pend w ->
  exists w', IopDeleteIoCompletion_loop pend w = Some w' /\
             Queue w' = Queue w /\ quota_inv [] w'.
Proof.
  revert w. induction pend as [|e rest IH]; intros w Hinv.
  - by exists w.
  - pose proof Hinv as (_ & Hlive & _).
    destruct (Hlive e) as (_ & obj & Hm & Hwt).
    { rewrite !elem_of_app. right. right. left. }
    destruct (release_preserves e rest obj w Hinv Hm)
      as (w1 & Hrel & Hq1 & Hinv1).
    destruct (IH w1 Hinv1) as (w' & Hloop & Hq & Hinv').
    exists w'. simpl. unfold read_PacketType. rewrite Hm. simpl.
    assert (Hstep : (if decide (ObjPacketType obj = IopCompletionPacketIrp)
                     then Some (IoFreeIrp e w) else IopFreeMiniPacket e w)
                    = Some w1).
    { destruct obj as [irp|pkt]; simpl in *; [done|].
      destruct (decide _); done. }
    rewrite Hstep. simpl. split; [done|]. split; [congruence|done].
Qed.

Lemma IopDeleteIoCompletion_preserves w :
  world_inv w ->
  exists w', IopDeleteIoCompletion w = Some w' /\ world_inv w' /\
             EntryListHead (Queue w') = [].
Proof.
  intros [Hinv Hwait].
  set (w0 := set_Queue (KeRundownQueue (Queue w)).2 w).
  assert (Hinv0 : quota_inv (EntryListHead (Queue w)) w0) by exact Hinv.
  destruct (IopDeleteIoCompletion_loop_preserves _ w0 Hinv0)
    as (w' & Hloop & Hq & Hinv').
  unfold IopDeleteIoCompletion, KeRundownQueue. fold w0.
  destruct (EntryListHead (Queue w)) as [|e rest] eqn:He.
  - simpl in Hloop. injection Hloop as <-. exists w0. done.
  - fold w0. exists w'. split; [exact Hloop|].
    unfold world_inv. rewrite Hq. simpl. done.
Qed.

Lemma world_inv_emit ev w :
  quota_neutral ev = true -> world_inv w -> world_inv (emit ev w).
Proof.
  intros Hn [Hinv Hwait]. split; [|done].
  apply quota_inv_neutral with (w := w) (evs := [ev]); simpl; try done.
  by rewrite Hn.
Qed.

Lemma NtSetIoCompletion_preserves handle Key Apc St Info pool w :
  world_inv w -> pool_fresh w pool ->
  world_inv (NtSetIoCompletion handle Key Apc St Info pool w).2.
Proof.
  intros Hinv Hfresh. unfold NtSetIoCompletion.
  assert (Hinv1 : world_inv (emit EvObReferenceObjectByHandle w))
    by (by apply world_inv_emit).
  destruct (NT_SUCCESS handle); [|done].
  assert (Hfresh1 : pool_fresh (emit EvObReferenceObjectByHandle w) pool)
    by (by destruct pool).
  pose proof (IoSetIoCompletion_preserves Key Apc St Info true pool _
                Hinv1 Hfresh1) as H.
  destruct (IoSetIoCompletion _ _ _ _ _ _ _) as [Status w']. simpl in *.
  by apply world_inv_emit.
Qed.

Lemma irp_completion_preserves p irp w :
  world_inv w -> kernel_address p -> Memory w !! p = None ->
  world_inv (irp_completion p irp w).
Proof.
  intros Hinv Hk Hnone.
  apply queue_insert_preserves
    with (w := w) (p := p) (obj := ObjIrp irp) (evs := [EvKeInsertQueue p]);
    try done.
  - right. split; [|done]. unfold tracked. simpl.
    apply perm_move_end.
  - left. done.
Qed.

(** A query that returns has added events to the trace and done nothing
    else; the events are the reference, the dereference and the stores. *)
Lemma NtQueryIoCompletion_some c handle cls len rl w St w' :
  NtQueryIoCompletion c handle cls len rl w = Some (St, w') ->
  exists evs, w' = add_events evs w /\ forallb quota_neutral evs = true.
Proof.
  unfold NtQueryIoCompletion, except_system.
  destruct (probe_all _ _).
  { destruct (ExSystemExceptionFilter _); [|done]. intros [= _ <-].
    exists []. by rewrite add_events_nil. }
  destruct (decide _).
  { intros [= _ <-]. exists []. by rewrite add_events_nil. }
  destruct (decide _).
  { intros [= _ <-]. exists []. by rewrite add_events_nil. }
  destruct (NT_SUCCESS handle).
  - destruct (store_all _ _ _) as [w2|] eqn:Hst; [|done].
    cbn [mbind option_bind]. intros [= _ <-].
    apply store_all_some in Hst as ->.
    rewrite !emit_add_events, !add_events_app. eexists. split; [done|].
    rewrite !forallb_app, stores_made_neutral. done.
  - intros [= _ <-]. by exists [EvObReferenceObjectByHandle].
Qed.

Lemma NtQueryIoCompletion_preserves c handle cls len rl w St w' :
  world_inv w ->
  NtQueryIoCompletion c handle cls len rl w = Some (St, w') ->
  world_inv w'.
Proof.
  intros Hinv Hrun.
  apply NtQueryIoCompletion_some in Hrun as (evs & -> & Hn).
  by apply world_inv_add_events.
Qed.

Lemma step_preserves w w' : world_inv w -> step w w' -> world_inv w'.
Proof.
  intros Hinv Hstep. destruct Hstep.
  - by apply IoSetIoCompletion_preserves.
  - by apply NtSetIoCompletion_preserves.
  - by eapply NtRemoveIoCompletion_preserves.
  - by eapply NtQueryIoCompletion_preserves.
  - destruct (IopDeleteIoCompletion_preserves w Hinv)
      as (w1 & Hrun & Hinv1 & _). congruence.
  - by apply irp_completion_preserves.
Qed.

Lemma reachable_preserves w w' : world_inv w -> rtc step w w' -> world_inv w'.
Proof.
  intros Hinv Hrun. induction Hrun as [|w w1 w2 Hstep _ IH]; [done|].
  apply IH. by apply (step_preserves w).
Qed.

Lemma world_inv_idle : world_inv idle_world.
Proof.
  split; [|done]. unfold quota_inv. simpl. split; [constructor|].
  split.
  - intros p Hp. by apply not_elem_of_nil in Hp.
  - intros p. split; [done|]. split; [done|].
    intros (Hp & _). by apply not_elem_of_nil in Hp.
Qed.

(** C5: in every state reached from a state that satisfies the invariant,
    by any sequence of posts, removals, queries, request completions and
    the delete routine, the account of every address is balanced: each
    quota charge has been released exactly once, except the one still
    outstanding.  A charge is outstanding only for a packet that is
    pending in the queue and tagged quota-charged, so never for a packet on
    a lookaside list and never for a packet that was freed.  The delete
    routine returns from every such state and leaves no charge
    outstanding. *)
Theorem quota_released_exactly_once w0 w :
  world_inv w0 -> rtc step w0 w ->
  (forall p,
     charged (quota_account p (Trace w)) =
       (released (quota_account p (Trace w))
        + (if outstanding (quota_account p (Trace w)) then 1 else 0))%nat /\
     (outstanding (quota_account p (Trace w)) = true ->
      p ∈ EntryListHead (Queue w) /\
      (p ∉ ListHead (LookasideP w)) /\ (p ∉ ListHead (LookasideL w)) /\
      read_PacketType w p = Some IopCompletionPacketQuota)) /\
  (forall p,
     p ∈ EntryListHead (Queue w) ->
     read_PacketType w p = Some IopCompletionPacketQuota ->
     outstanding (quota_account p (Trace w)) = true) /\
  exists w',
    IopDeleteIoCompletion w = Some w' /\
    forall p,
      outstanding (quota_account p (Trace w')) = false /\
      charged (quota_account p (Trace w'))
        = released (quota_account p (Trace w')).
Proof.
  intros Hinv0 Hrun.
  pose proof (reachable_preserves w0 w Hinv0 Hrun) as Hinv.
  pose proof Hinv as [(Hnd & Hlive & Hacc) Hwait].
  split; [|split].
  - intros p. destruct (Hacc p) as [Hbal Hout]. split; [exact Hbal|].
    intros Ho. apply Hout in Ho as (Hin & obj & Hm & Hty).
    split; [done|].
    apply NoDup_app in Hnd as (_ & HPnot & Hnd).
    apply NoDup_app in Hnd as (_ & HLnot & _).
    split; [|split].
    + intros HinP. apply (HPnot p HinP). apply elem_of_app. by right.
    + intros HinL. by apply (HLnot p HinL).
    + unfold read_PacketType. rewrite Hm. simpl. by rewrite Hty.
  - intros p Hin Hty. apply Hacc. split; [done|].
    unfold read_PacketType in Hty.
    destruct (Memory w !! p) as [obj|] eqn:Hm; [|done].
    exists obj. split; [done|]. by injection Hty.
  - destruct (IopDeleteIoCompletion_preserves w Hinv)
      as (w' & Hdel & [(_ & _ & Hacc') _] & Hempty).
    exists w'. split; [exact Hdel|]. intros p.
    destruct (Hacc' p) as [Hbal Hout].
    assert (Ho : outstanding (quota_account p (Trace w')) = false).
    { destruct (outstanding _); [|done].
      destruct Hout as [Hout _]. destruct (Hout eq_refl) as [Hin _].
      rewrite Hempty in Hin. by apply not_elem_of_nil in Hin. }
    split; [exact Ho|]. unfold balanced in Hbal. rewrite Ho in Hbal. lia.
Qed.

Lemma quota_released_exactly_once_witness :
  world_inv idle_world /\ rtc step idle_world world_after_remove /\
  quota_account 0x80001000 (Trace world_after_post)
    = {| charged := 1; released := 0; outstanding := true |} /\
  charged (quota_account 0x80001000 (Trace world_after_remove)) = 1%nat /\
  released (quota_account 0x80001000 (Trace world_after_remove)) = 1%nat.
Proof.
  assert (Hrun : rtc step idle_world world_after_remove).
  { eapply rtc_l.
    - apply (step_IoSetIoCompletion 7 8 0 512 true (PoolBlock 0x80001000)).
      split; [unfold kernel_address; lia|reflexivity].
    - eapply rtc_l; [|apply rtc_refl].
      eapply (step_NtRemoveIoCompletion kernel_caller STATUS_SUCCESS false
                1%nat WaitTimeout). reflexivity. }
  split; [exact world_inv_idle|]. split; [exact Hrun|].
  split; [reflexivity|].
  destruct (quota_released_exactly_once idle_world world_after_remove
              world_inv_idle Hrun) as (Hacc & _ & _).
  destruct (Hacc 0x80001000) as [Hbal _].
  assert (Hc : charged (quota_account 0x80001000 (Trace world_after_remove))
               = 1%nat) by reflexivity.
  assert (Ho : outstanding (quota_account 0x80001000
                              (Trace world_after_remove)) = false)
    by reflexivity.
  rewrite Ho, Hc in Hbal. split; [exact Hc|]. lia.
Defined.

(** ** The concurrency ceiling *)






(** ** Creating and opening the object *)

Lemma probe_handle_passes Mode a :
  probe_handle Mode a = None <->
  Mode = KernelMode \/ handle_probe_raises a = None.
Proof.
  unfold probe_handle. destruct (decide (Mode <> KernelMode)) as [Hm|Hm].
  - split; [by right|]. intros [?|?]; done.
  - split; [|done]. intros _. left.
    destruct Mode; [done|]. exfalso. apply Hm. discriminate.
Qed.

Lemma except_system_mode_cases {A : Type} Mode (x : A) :
  (Mode <> KernelMode -> except_system_mode Mode x = Some x) /\
  (Mode = KernelMode -> except_system_mode Mode x = None).
Proof.
  unfold except_system_mode, ExSystemExceptionFilter.
  destruct (decide (Mode <> KernelMode)); split; try done;
    try (intros ->; done).
Qed.

(** X1: NtCreateIoCompletion.  A user-mode caller whose handle variable
    fails the probe gets the exception code and nothing is created; a
    kernel-mode caller is not probed.  Otherwise a failure of
    ObCreateObject is returned as it is; on success the queue is
    initialised with [Count] before the object is inserted in the handle
    table, and the status is the status of ObInsertObject.  When the
    insertion succeeded the handle it produced is stored; if that store
    faults, a caller whose previous mode is not kernel mode still gets the
    status of ObInsertObject and no handle, while for a kernel-mode caller
    the exception is passed on and the call does not return.  A handle is
    stored only in a call that returns a success status. *)
Theorem NtCreateIoCompletion_outcome Mode a Count n create insert Handle :
  let r := NtCreateIoCompletion Mode a Count n create insert Handle in
  let created :=
    [HeObCreateObject; HeKeInitializeQueue Count;
     HeObInsertObject (KeInitializeQueue n Count)] in
  (forall code, Mode <> KernelMode -> handle_probe_raises a = Some code ->
     r = Some (code, [])) /\
  (Mode = KernelMode \/ handle_probe_raises a = None ->
     (NT_SUCCESS create = false -> r = Some (create, [HeObCreateObject])) /\
     (NT_SUCCESS create = true -> NT_SUCCESS insert = false ->
        r = Some (insert, created)) /\
     (NT_SUCCESS create = true -> NT_SUCCESS insert = true ->
        (handle_writable a = true ->
           r = Some (insert, created ++ [HeWriteHandle Handle])) /\
        (handle_writable a = false -> Mode <> KernelMode ->
           r = Some (insert, created)) /\
        (handle_writable a = false -> Mode = KernelMode -> r = None))) /\
  (forall st tr h, r = Some (st, tr) -> HeWriteHandle h ∈ tr ->
     h = Handle /\ st = insert /\ NT_SUCCESS st = true /\
     NT_SUCCESS create = true /\ handle_writable a = true).
Proof.
  intros r created. subst r created.
  unfold NtCreateIoCompletion, store_handle.
  split; [|split].
  - intros code Hm Hp. unfold probe_handle.
    destruct (decide (Mode <> KernelMode)); [|done]. rewrite Hp.
    by apply except_system_mode_cases.
  - intros Hok. apply probe_handle_passes in Hok. rewrite Hok.
    split; [by intros ->|]. split; [by intros -> ->|].
    intros -> ->. split; [by intros ->|].
    split; intros -> Hm; cbn [mbind option_bind].
    + by rewrite (proj1 (except_system_mode_cases Mode []) Hm).
    + by rewrite (proj2 (except_system_mode_cases Mode []) Hm).
  - intros st tr h.
    destruct (probe_handle Mode a) as [code|].
    { unfold except_system_mode. destruct (ExSystemExceptionFilter Mode);
        [|done]. intros [= <- <-] Hin. by apply not_elem_of_nil in Hin. }
    destruct (NT_SUCCESS create) eqn:Hc.
    2:{ intros [= <- <-]. rewrite list_elem_of_singleton. done. }
    destruct (NT_SUCCESS insert) eqn:Hi.
    2:{ intros [= <- <-]. rewrite !elem_of_cons, elem_of_nil.
        intuition discriminate. }
    destruct (handle_writable a).
    + cbn. intros [= <- <-]. rewrite !elem_of_cons, elem_of_nil.
      intros [?|[?|[?|[Hh|[]]]]]; try discriminate.
      injection Hh as ->. done.
    + unfold except_system_mode. destruct (ExSystemExceptionFilter Mode);
        [|done]. cbn. intros [= <- <-].
      rewrite !elem_of_cons, elem_of_nil. intuition discriminate.
Qed.

(** X2: NtOpenIoCompletion.  A user-mode caller whose handle variable
    fails the probe gets the exception code and no open is attempted.
    Otherwise the status is the status of ObOpenObjectByName.  When the
    open succeeded the handle it produced is stored; if that store faults,
    a caller whose previous mode is not kernel mode still gets the status
    of the open and no handle, while for a kernel-mode caller the exception
    is passed on and the call does not return. *)
Theorem NtOpenIoCompletion_outcome Mode a open Handle :
  let r := NtOpenIoCompletion Mode a open Handle in
  (forall code, Mode <> KernelMode -> handle_probe_raises a = Some code ->
     r = Some (code, [])) /\
  (Mode = KernelMode \/ handle_probe_raises a = None ->
     (NT_SUCCESS open = false -> r = Some (open, [HeObOpenObjectByName])) /\
     (NT_SUCCESS open = true ->
        (handle_writable a = true ->
           r = Some (open, [HeObOpenObjectByName; HeWriteHandle Handle])) /\
        (handle_writable a = false -> Mode <> KernelMode ->
           r = Some (open, [HeObOpenObjectByName])) /\
        (handle_writable a = false -> Mode = KernelMode -> r = None))) /\
  (forall st tr h, r = Some (st, tr) -> HeWriteHandle h ∈ tr ->
     h = Handle /\ st = open /\ NT_SUCCESS st = true /\
     handle_writable a = true).
Proof.
  intros r. subst r. unfold NtOpenIoCompletion, store_handle.
  split; [|split].
  - intros code Hm Hp. unfold probe_handle.
    destruct (decide (Mode <> KernelMode)); [|done]. rewrite Hp.
    by apply except_system_mode_cases.
  - intros Hok. apply probe_handle_passes in Hok. rewrite Hok.
    split; [by intros ->|].
    intros ->. split; [by intros ->|].
    split; intros -> Hm; cbn [mbind option_bind].
    + by rewrite (proj1 (except_system_mode_cases Mode []) Hm).
    + by rewrite (proj2 (except_system_mode_cases Mode []) Hm).
  - intros st tr h.
    destruct (probe_handle Mode a) as [code|].
    { unfold except_system_mode. destruct (ExSystemExceptionFilter Mode);
        [|done]. intros [= <- <-] Hin. by apply not_elem_of_nil in Hin. }
    destruct (NT_SUCCESS open) eqn:Ho.
    2:{ intros [= <- <-]. rewrite list_elem_of_singleton. done. }
    destruct (handle_writable a).
    + cbn. intros [= <- <-]. rewrite !elem_of_cons, elem_of_nil.
      intros [?|[Hh|[]]]; try discriminate.
      injection Hh as ->. done.
    + unfold except_system_mode. destruct (ExSystemExceptionFilter Mode);
        [|done]. cbn. intros [= <- <-].
      rewrite list_elem_of_singleton. done.
Qed.

(** ** The two tiers over a run *)

Lemma ulong_diff_inc a b : ulong_diff (ulong_inc a) (ulong_inc b) = ulong_diff a b.
Proof.
  unfold ulong_diff, ulong_inc. rewrite <- Zminus_mod. f_equal. lia.
Qed.

Lemma pool_step_refl w : pool_step w w.
Proof. unfold pool_step. repeat split; lia. Qed.

Lemma pool_step_trans w1 w2 w3 :
  pool_step w1 w2 -> pool_step w2 w3 -> pool_step w1 w3.
Proof.
  unfold pool_step.
  intros (HdP & HdL & HlP & HlL & Ha & Hf) (HdP' & HdL' & HlP' & HlL' & Ha' & Hf').
  rewrite HdP', HdL', Ha', Hf', HdP, HdL, Ha, Hf.
  rewrite HdP in HlP'. rewrite HdL in HlL'. repeat split; lia.
Qed.

Lemma pool_step_same w w' :
  LookasideP w' = LookasideP w -> LookasideL w' = LookasideL w ->
  pool_step w w'.
Proof. unfold pool_step. intros -> ->. repeat split; lia. Qed.

Lemma IopFreeMiniPacket_pool_step p w w' :
  IopFreeMiniPacket p w = Some w' -> pool_step w w'.
Proof.
  unfold IopFreeMiniPacket, read_PacketType, return_quota_if_charged.
  destruct w as [[lp dp ta am tf fm] [ll dl ta' am' tf' fm'] q m tr].
  cbn -[Z.leb]. unfold ExQueryDepthSList.
  destruct (Z.leb_spec dp (Z.of_nat (length lp))) as [H1|H1].
  - destruct (Z.leb_spec dl (Z.of_nat (length ll))) as [H2|H2].
    + intros [= <-]. unfold pool_step, ExQueryDepthSList. cbn.
      repeat split; try lia. apply ulong_diff_inc.
    + destruct (m !! p) as [o|]; cbn; [|done].
      destruct (decide _); intros [= <-];
        unfold pool_step, ExQueryDepthSList; cbn -[Z.of_nat];
        (repeat split; try lia; apply ulong_diff_inc).
  - destruct (m !! p) as [o|]; cbn; [|done].
    destruct (decide _); intros [= <-];
      unfold pool_step, ExQueryDepthSList; cbn -[Z.of_nat];
      repeat split; lia.
Qed.

Lemma IoSetIoCompletion_pool_step Key Apc St Info Quota pool w :
  pool_step w (IoSetIoCompletion Key Apc St Info Quota pool w).2.
Proof.
  unfold IoSetIoCompletion, IoSetIoCompletion_allocate.
  destruct w as [[lp dp ta am tf fm] [ll dl ta' am' tf' fm'] q m tr].
  destruct lp as [|a lp], ll as [|b ll], Quota, pool as [p|];
    repeat (cbn -[Z.of_nat];
            match goal with
            | |- context [decide ?P] => destruct (decide P)
            end);
    unfold pool_step, ExQueryDepthSList; cbn -[Z.of_nat];
    (repeat split; try lia; apply ulong_diff_inc).
Qed.

Lemma capture_pool_step Entry w Apc Key Iosb w1 :
  NtRemoveIoCompletion_capture Entry w = Some (Apc, Key, Iosb, w1) ->
  pool_step w w1.
Proof.
  unfold NtRemoveIoCompletion_capture.
  destruct (read_PacketType w Entry) as [ty|]; cbn; [|done].
  destruct (decide _).
  - destruct (read_Irp w Entry) as [irp|]; cbn; [|done].
    intros [= _ _ _ <-]. by apply pool_step_same.
  - destruct (read_MiniPacket w Entry) as [pkt|]; cbn; [|done].
    destruct (IopFreeMiniPacket Entry w) as [w2|] eqn:Hfree; cbn; [|done].
    intros [= _ _ _ <-]. by apply IopFreeMiniPacket_pool_step with Entry.
Qed.

Lemma NtRemoveIoCompletion_pool_step c handle tp t o w St w' :
  NtRemoveIoCompletion c handle tp t o w = Some (St, w') -> pool_step w w'.
Proof.
  unfold NtRemoveIoCompletion, except_system.
  destruct (probe_all _ _).
  { destruct (ExSystemExceptionFilter _); [|done].
    intros [= _ <-]; apply pool_step_refl. }
  destruct (NT_SUCCESS handle);
    [|intros [= _ <-]; by apply pool_step_same].
  destruct (KeRemoveQueue _ _ _) as [Entry q].
  destruct (decide _); [intros [= _ <-]; by apply pool_step_same|].
  destruct (NtRemoveIoCompletion_capture _ _)
    as [[[[Apc Key] Iosb] w1]|] eqn:Hcap; cbn [mbind option_bind]; [|done].
  destruct (store_all _ _ _) as [w2|] eqn:Hst; cbn [mbind option_bind];
    [|done].
  apply store_all_some in Hst as ->.
  intros [= _ <-]. apply capture_pool_step in Hcap.
  apply pool_step_trans with w1.
  - apply pool_step_trans
      with (set_Queue q (emit EvObReferenceObjectByHandle w)); [|done].
    by apply pool_step_same.
  - by apply pool_step_same.
Qed.

Lemma IopDeleteIoCompletion_loop_pool_step entries w w' :
  IopDeleteIoCompletion_loop entries w = Some w' -> pool_step w w'.
Proof.
  revert w. induction entries as [|e rest IH]; intros w; cbn.
  - intros [= <-]. apply pool_step_refl.
  - destruct (read_PacketType w e) as [ty|]; cbn; [|done].
    destruct (decide _); cbn.
    + intros Hloop. apply IH in Hloop.
      apply pool_step_trans with (IoFreeIrp e w); [|done].
      by apply pool_step_same.
    + destruct (IopFreeMiniPacket e w) as [w1|] eqn:Hfree; cbn; [|done].
      intros Hloop. apply IH in Hloop.
      apply pool_step_trans with w1; [|done].
      by apply IopFreeMiniPacket_pool_step with e.
Qed.

Lemma step_pool_step w w' : step w w' -> pool_step w w'.
Proof.
  intros Hstep. destruct Hstep.
  - apply IoSetIoCompletion_pool_step.
  - unfold NtSetIoCompletion. destruct (NT_SUCCESS handle).
    + pose proof (IoSetIoCompletion_pool_step Key Apc St Info true pool
                    (emit EvObReferenceObjectByHandle w)) as Hpool.
      destruct (IoSetIoCompletion _ _ _ _ _ _ _) as [Status w1]. cbn in *.
      apply pool_step_trans with w1; [|by apply pool_step_same].
      apply pool_step_trans with (emit EvObReferenceObjectByHandle w);
        [by apply pool_step_same|done].
    + by apply pool_step_same.
  - by eapply NtRemoveIoCompletion_pool_step.
  - match goal with
    | Hq : NtQueryIoCompletion _ _ _ _ _ _ = Some _ |- _ =>
        apply NtQueryIoCompletion_some in Hq as (evs & -> & _)
    end.
    by apply pool_step_same.
  - match goal with
    | Hdel : IopDeleteIoCompletion _ = Some _ |- _ =>
        unfold IopDeleteIoCompletion in Hdel;
        destruct (KeRundownQueue (Queue w)) as [entries q];
        destruct entries as [|e rest];
        [injection Hdel as <-; by apply pool_step_same|];
        apply IopDeleteIoCompletion_loop_pool_step in Hdel;
        apply pool_step_trans with (set_Queue q w); [|done];
        by apply pool_step_same
    end.
  - by apply pool_step_same.
Qed.

Lemma run_pool_step w w' : rtc step w w' -> pool_step w w'.
Proof.
  intros Hrun. induction Hrun as [|w w1 w2 Hstep _ IH].
  - apply pool_step_refl.
  - apply pool_step_trans with w1; [by apply step_pool_step|done].
Qed.

(** X3: over every sequence of posts, removals, queries, request
    completions and the delete routine the depth limits of both tiers stay
    as configured, and a tier that holds no more packets than its limit
    never comes to hold more: a push is made only under the limit. *)
Theorem tiers_stay_within_depth w0 w :
  rtc step w0 w ->
  tier_bounded (LookasideP w0) -> tier_bounded (LookasideL w0) ->
  Depth (LookasideP w) = Depth (LookasideP w0) /\
  Depth (LookasideL w) = Depth (LookasideL w0) /\
  tier_bounded (LookasideP w) /\ tier_bounded (LookasideL w).
Proof.
  intros Hrun HP HL. unfold tier_bounded in *.
  destruct (run_pool_step w0 w Hrun) as (HdP & HdL & HlP & HlL & _).
  rewrite HdP, HdL. repeat split; lia.
Qed.

Lemma tiers_stay_within_depth_witness :
  rtc step idle_world world_after_remove /\
  ListHead (LookasideP world_after_remove) = [0x80001000] /\
  tier_bounded (LookasideP world_after_remove).
Proof.
  assert (Hrun : rtc step idle_world world_after_remove).
  { eapply rtc_l.
    - apply (step_IoSetIoCompletion 7 8 0 512 true (PoolBlock 0x80001000)).
      split; [unfold kernel_address; lia|reflexivity].
    - eapply rtc_l; [|apply rtc_refl].
      eapply (step_NtRemoveIoCompletion kernel_caller STATUS_SUCCESS false
                1%nat WaitTimeout). reflexivity. }
  split; [exact Hrun|]. split; [reflexivity|].
  refine (proj1 (proj2 (proj2 (tiers_stay_within_depth idle_world
                                 world_after_remove Hrun _ _)))).
  - unfold tier_bounded. simpl. unfold ExQueryDepthSList. simpl. lia.
  - unfold tier_bounded. simpl. unfold ExQueryDepthSList. simpl. lia.
Defined.



(** ** Memory safety over a run *)

Lemma example_run : rtc step idle_world world_after_remove.
Proof.
  eapply rtc_l.
  - apply (step_IoSetIoCompletion 7 8 0 512 true (PoolBlock 0x80001000)).
    split; [unfold kernel_address; lia|reflexivity].
  - eapply rtc_l; [|apply rtc_refl].
    eapply (step_NtRemoveIoCompletion kernel_caller STATUS_SUCCESS false
              1%nat WaitTimeout). reflexivity.
Qed.

(** X6: in every state reached from a state that satisfies the
    invariant, the packets on the per-processor list, on the shared list
    and in the queue are pairwise distinct (no packet is on two lists, or
    both free and pending, or twice on one list), none of them is [NULL],
    and each addresses an object that has not been given back to its
    allocator. *)
Theorem packets_distinct_and_live w0 w :
  world_inv w0 -> rtc step w0 w ->
  NoDup (ListHead (LookasideP w) ++ ListHead (LookasideL w)
           ++ EntryListHead (Queue w)) /\
  forall p : PVOID,
    p ∈ ListHead (LookasideP w) ++ ListHead (LookasideL w)
          ++ EntryListHead (Queue w) ->
    p <> NULL /\ is_Some (Memory w !! p).
Proof.
  intros Hinv0 Hrun.
  destruct (reachable_preserves w0 w Hinv0 Hrun) as [(Hnd & Hlive & _) _].
  split; [exact Hnd|]. intros p Hp.
  destruct (Hlive p Hp) as (Hk & obj & Hm & _).
  split; [by apply kernel_address_not_status|]. by exists obj.
Qed.

Lemma packets_distinct_and_live_witness :
  world_inv idle_world /\ rtc step idle_world world_after_remove /\
  is_Some (Memory world_after_remove !! 0x80001000).
Proof.
  split; [exact world_inv_idle|]. split; [exact example_run|].
  destruct (packets_distinct_and_live idle_world world_after_remove
              world_inv_idle example_run) as [_ Hlive].
  apply (Hlive 0x80001000). simpl. left.
Defined.

(** X7: in every such state a removal never reads a packet type or a
    field through an address that holds no object: whatever the caller,
    when KeRemoveQueue returns an entry the capture of its fields and the
    release of the packet run to their end.  The call then returns unless
    a store to the caller faults and the previous mode is kernel mode (the
    exception is then passed on): for a caller whose previous mode is not
    kernel mode, or whose stores do not fault, every removal returns,
    whatever the handle and the outcome of the wait. *)
Theorem removal_never_reads_freed_memory w0 w c handle tp t o :
  world_inv w0 -> rtc step w0 w ->
  (forall Entry q,
     removal_returns c handle tp t o w Entry q ->
     exists Apc Key Iosb w1,
       NtRemoveIoCompletion_capture Entry
         (set_Queue q (emit EvObReferenceObjectByHandle w))
       = Some (Apc, Key, Iosb, w1)) /\
  (PreviousMode c <> KernelMode \/ (forall a, writable c a = true) ->
   exists St w', NtRemoveIoCompletion c handle tp t o w = Some (St, w')).
Proof.
  intros Hinv0 Hrun.
  pose proof (reachable_preserves w0 w Hinv0 Hrun) as Hinv.
  split; [|by apply NtRemoveIoCompletion_returns].
  intros Entry q Hret.
  pose proof Hret as (_ & _ & Hk & Ht & Ha).
  destruct Hinv as [Hinv Hwait].
  destruct (KeRemoveQueue_cases (Queue w) t o Hwait) as [_ Hcases].
  rewrite Hk in Hcases. simpl in Hcases.
  destruct Hcases as [(rest & He & _) | (Hst & _)].
  2:{ destruct o; simpl in Hst; congruence. }
  pose proof Hinv as (_ & Hlive & _). rewrite He in Hlive.
  destruct (Hlive Entry) as (_ & obj & Hm & Hwt).
  { rewrite !elem_of_app. right. right. left. }
  destruct (capture_release Entry obj
              (set_Queue q (emit EvObReferenceObjectByHandle w)) Hm Hwt)
    as (Apc & Key & Iosb & w1 & _ & Hcap).
  by exists Apc, Key, Iosb, w1.
Qed.

Lemma removal_never_reads_freed_memory_witness :
  EntryListHead (Queue world_after_post) = [0x80001000] /\
  exists St w',
    NtRemoveIoCompletion faulting_caller STATUS_SUCCESS true 2%nat WaitUserApc
      world_after_post = Some (St, w').
Proof.
  split; [reflexivity|].
  refine (proj2 (removal_never_reads_freed_memory idle_world world_after_post
                   faulting_caller STATUS_SUCCESS true 2%nat WaitUserApc
                   world_inv_idle _) _).
  - apply rtc_once.
    apply (step_IoSetIoCompletion 7 8 0 512 true (PoolBlock 0x80001000)).
    split; [unfold kernel_address; lia|reflexivity].
  - left. discriminate.
Defined.

(** ** Recycling *)



(** ** A post followed by a removal *)

Lemma world_inv_lookasides w : world_inv w -> lookasides_hold_packets w.
Proof.
  intros [(_ & Hlive & _) _]. split; intros Hin.
  - destruct (Hlive NULL) as [Hk _].
    + apply elem_of_app. by left.
    + by apply kernel_address_not_status in Hk as (? & _).
  - destruct (Hlive NULL) as [Hk _].
    + rewrite !elem_of_app. auto.
    + by apply kernel_address_not_status in Hk as (? & _).
Qed.

(** What a successful post leaves, in a state that satisfies the
    invariant: one more pending entry, holding the fields posted. *)
Lemma successful_post Key Apc St Info Quota pool w w1 :
  world_inv w -> pool_fresh w pool ->
  IoSetIoCompletion Key Apc St Info Quota pool w = (STATUS_SUCCESS, w1) ->
  exists p ty,
    kernel_address p /\ ty <> IopCompletionPacketIrp /\
    world_inv w1 /\
    Queue w1 = KeInsertQueue (Queue w) p /\
    EntryListHead (Queue w1) = EntryListHead (Queue w) ++ [p] /\
    Memory w1 =
      <[p := ObjMini {| PacketType := ty; KeyContext := Key;
                        ApcContext := Apc; IoStatus := St;
                        IoStatusInformation := Info |}]> (Memory w).
Proof.
  intros Hinv Hfresh Hpost.
  pose proof (IoSetIoCompletion_preserves Key Apc St Info Quota pool w
                Hinv Hfresh) as Hinv1.
  pose proof (IoSetIoCompletion_outcome Key Apc St Info Quota pool w
                (world_inv_lookasides w Hinv)) as Hout.
  rewrite Hpost in Hinv1, Hout. simpl in Hinv1.
  destruct (tiered_allocation Quota pool w) as [[p ty] evs].
  destruct Hout as (_ & Hnull & Hok).
  destruct (decide (p = NULL)) as [Hp|Hp].
  { destruct (Hnull Hp) as (Hst & _). discriminate Hst. }
  destruct (Hok Hp) as (_ & Hmem & Hq & _).
  destruct Hinv as [_ Hwait].
  destruct (KeInsertQueue_no_waiters (Queue w) p Hwait) as [He _].
  assert (Hin : p ∈ EntryListHead (Queue w1)).
  { rewrite Hq, He. apply elem_of_app. right. left. }
  destruct Hinv1 as [(Hnd & Hlive & Hacc) Hwait1].
  destruct (Hlive p) as (Hk & obj & Hm & Hwt).
  { rewrite !elem_of_app. auto. }
  rewrite Hmem, lookup_insert_eq in Hm. injection Hm as <-.
  exists p, ty. split; [done|]. split; [exact Hwt|].
  split; [by split|]. split; [done|]. split; [by rewrite Hq|done].
Qed.

(** X5: a post and the removal that follows it.  In a state that
    satisfies the invariant, with nothing pending and the caller admitted
    by the concurrency limit, a successful post followed by a removal
    whose stores succeed delivers to the caller exactly the APC context,
    the key context, the status and the status information that were
    posted, returns STATUS_SUCCESS, and leaves nothing pending. *)
Theorem post_then_remove_round_trip
  Key Apc St Info Quota pool c handle tp t o w w1 :
  world_inv w -> pool_fresh w pool ->
  EntryListHead (Queue w) = [] ->
  (length (remove_thread t (ActiveThreads (Queue w)))
   < MaximumCount (Queue w))%nat ->
  probe_all c (NtRemoveIoCompletion_probes c tp) = None ->
  NT_SUCCESS handle = true ->
  (forall a, writable c a = true) ->
  IoSetIoCompletion Key Apc St Info Quota pool w = (STATUS_SUCCESS, w1) ->
  exists w' evs,
    NtRemoveIoCompletion c handle tp t o w1 = Some (STATUS_SUCCESS, w') /\
    Trace w' =
      Trace w1 ++ evs
        ++ delivery Apc Key {| Status := St; Information := Info |} /\
    no_stores evs /\
    EntryListHead (Queue w') = [].
Proof.
  intros Hinv Hfresh Hempty Hadmit Hprobe Hhandle Hw Hpost.
  destruct (successful_post _ _ _ _ _ _ _ _ Hinv Hfresh Hpost)
    as (p & ty & Hk & Hty & Hinv1 & Hq & He & Hmem).
  destruct Hinv as [_ Hwait].
  destruct (kernel_address_not_status p Hk) as (_ & Hnt & Hna).
  set (q' := (KeRemoveQueue (Queue w1) t o).2).
  assert (Hrem : KeRemoveQueue (Queue w1) t o = (p, q') /\
                 EntryListHead q' = []).
  { subst q'. unfold KeRemoveQueue, KeRemoveQueue_arrive.
    rewrite He, Hempty. simpl.
    rewrite Hq. unfold KeInsertQueue. rewrite Hwait. simpl.
    destruct (Nat.ltb_spec
                (length (remove_thread t (ActiveThreads (Queue w))))
                (MaximumCount (Queue w))); [|lia]. done. }
  destruct Hrem as [Hrem Hq'].
  assert (Hret : removal_returns c handle tp t o w1 p q') by done.
  set (w0 := set_Queue q' (emit EvObReferenceObjectByHandle w1)).
  set (pkt := {| PacketType := ty; KeyContext := Key; ApcContext := Apc;
                 IoStatus := St; IoStatusInformation := Info |}).
  assert (Hm0 : Memory w0 !! p = Some (ObjMini pkt)).
  { simpl. rewrite Hmem. apply lookup_insert_eq. }
  destruct (capture_mini p pkt w0 Hm0 Hty) as (w2 & Hfree & Hcap).
  destruct (release_effect p (ObjMini pkt) w0 Hm0)
    as (w2' & evs & Hrel & Hq2 & Htr & _ & Hns & _).
  simpl in Hrel. rewrite Hfree in Hrel. injection Hrel as <-.
  eexists. exists ([EvObReferenceObjectByHandle] ++ evs).
  split; [|split; [|split]].
  - rewrite (NtRemoveIoCompletion_entry c handle tp t o w1 p q' Hret).
    fold w0. rewrite Hcap. cbn [mbind option_bind].
    rewrite (store_all_writable c _ _ Hw). reflexivity.
  - cbn [Trace emit add_events]. rewrite Htr.
    rewrite (stores_made_all_writable c _ Hw). simpl.
    rewrite <- !app_assoc. reflexivity.
  - apply Forall_app. split; [repeat constructor|exact Hns].
  - cbn [Queue emit add_events]. rewrite Hq2. exact Hq'.
Qed.

Lemma post_then_remove_round_trip_witness :
  exists w' evs,
    NtRemoveIoCompletion kernel_caller STATUS_SUCCESS false 1%nat WaitTimeout
      world_after_post = Some (STATUS_SUCCESS, w') /\
    Trace w' =
      Trace world_after_post ++ evs
        ++ delivery 8 7 {| Status := 0; Information := 512 |} /\
    no_stores evs /\ EntryListHead (Queue w') = [].
Proof.
  apply (post_then_remove_round_trip 7 8 0 512 true (PoolBlock 0x80001000)
           kernel_caller STATUS_SUCCESS false 1%nat WaitTimeout idle_world
           world_after_post world_inv_idle).
  - split; [unfold kernel_address; lia|reflexivity].
  - reflexivity.
  - simpl. lia.
  - reflexivity.
  - reflexivity.
  - intros a. reflexivity.
  - reflexivity.
Defined.

(** ** What a removal changes *)

(** The effect of a removal in a state that satisfies the invariant:
    either nothing but the reference and dereference of the object
    happened, or the head entry was removed, released and delivered. *)
Lemma NtRemoveIoCompletion_effect c handle tp t o w St w' :
  world_inv w ->
  NtRemoveIoCompletion c handle tp t o w = Some (St, w') ->
  exists evs, Trace w' = Trace w ++ evs /\
  ((EntryListHead (Queue w') = EntryListHead (Queue w) /\
    LookasideP w' = LookasideP w /\ LookasideL w' = LookasideL w /\
    Memory w' = Memory w /\
    Forall (fun ev => ev = EvObReferenceObjectByHandle \/
                      ev = EvObDereferenceObject) evs) \/
   (St = STATUS_SUCCESS /\
    exists e, EntryListHead (Queue w) = e :: EntryListHead (Queue w') /\
      (e ∉ EntryListHead (Queue w')) /\
      (Memory w' = Memory w \/ Memory w' = delete e (Memory w)) /\
      (Memory w' !! e = None \/
       e ∈ ListHead (LookasideP w') ++ ListHead (LookasideL w')))).
Proof.
  intros [Hinv Hwait]. unfold NtRemoveIoCompletion.
  destruct (probe_all _ _) as [code|].
  { unfold except_system. destruct (ExSystemExceptionFilter _); [|done].
    intros [= _ <-]. exists []. rewrite app_nil_r. split; [done|].
    left. repeat split; repeat constructor. }
  destruct (NT_SUCCESS handle).
  2:{ intros [= _ <-]. exists [EvObReferenceObjectByHandle].
      split; [done|]. left. repeat split; repeat constructor; auto. }
  simpl Queue.
  destruct (KeRemoveQueue_cases (Queue w) t o Hwait) as [Hw' Hcases].
  destruct (KeRemoveQueue (Queue w) t o) as [Entry q'] eqn:Hk.
  simpl in Hw', Hcases.
  destruct Hcases as [(rest & He & Hrest) | (-> & He)].
  - pose proof Hinv as (Hnd & Hlive & _). rewrite He in Hlive, Hinv, Hnd.
    destruct (Hlive Entry) as (Hka & obj & Hm & Hwt).
    { rewrite !elem_of_app. right. right. left. }
    destruct (kernel_address_not_status Entry Hka) as (_ & Hnt & Hna).
    destruct (decide _) as [[?|?]|_]; [done|done|].
    set (w0 := set_Queue q' (emit EvObReferenceObjectByHandle w)).
    assert (Hm0 : Memory w0 !! Entry = Some obj) by exact Hm.
    destruct (capture_release Entry obj w0 Hm0 Hwt)
      as (Apc & Key & Iosb & w1 & Hrel & Hcap).
    destruct (release_cases Entry obj w0 Hm0 Hwt)
      as (w1' & Hrel' & Hq1 & Hcases).
    rewrite Hrel in Hrel'. injection Hrel' as <-.
    destruct (release_effect Entry obj w0 Hm0)
      as (w1' & evs1 & Hrel' & _ & Htr1 & _).
    rewrite Hrel in Hrel'. injection Hrel' as <-.
    rewrite Hcap. cbn [mbind option_bind].
    destruct (store_all _ _ _) as [w2|] eqn:Hst; cbn [mbind option_bind];
      [|done].
    apply store_all_some in Hst as ->.
    intros [= <- <-].
    exists ([EvObReferenceObjectByHandle] ++ evs1
              ++ stores_made c (NtRemoveIoCompletion_stores Apc Key Iosb)
              ++ [EvObDereferenceObject]).
    split.
    { cbn [Trace emit add_events]. rewrite Htr1. simpl.
      rewrite <- !app_assoc. reflexivity. }
    right. split; [done|]. exists Entry. cbn [Queue Memory emit add_events
      LookasideP LookasideL]. rewrite Hq1. simpl. rewrite Hrest.
    assert (Hnotin : Entry ∉ rest).
    { apply NoDup_app in Hnd as (_ & _ & Hnd).
      apply NoDup_app in Hnd as (_ & _ & Hnd).
      by apply NoDup_cons in Hnd as [? _]. }
    split; [done|]. split; [done|].
    destruct Hcases as [(_ & Hmem & _) | (Htk & Hmem & _)].
    + split; [by right|]. left. rewrite Hmem. apply lookup_delete_eq.
    + split; [by left|]. right.
      assert (Hin : Entry ∈ tracked rest w1).
      { rewrite (Htk rest). left. }
      unfold tracked in Hin. rewrite app_assoc in Hin.
      apply elem_of_app in Hin as [Hin|Hin]; done.
  - destruct (decide _) as [_|Hno].
    + intros [= _ <-].
      exists [EvObReferenceObjectByHandle; EvObDereferenceObject].
      split; [simpl; by rewrite <- app_assoc|].
      left. split; [exact He|]. split; [done|]. split; [done|].
      split; [done|].
      apply Forall_cons_2; [by left|]. apply Forall_cons_2; [by right|].
      constructor.
    + exfalso. apply Hno. destruct o; auto.
Qed.

(** X9: a removal that returns anything but STATUS_SUCCESS (an exception
    code of a probe, the status of a failed reference, STATUS_TIMEOUT or
    STATUS_USER_APC) has no effect beyond the reference and dereference of
    the object: the pending entries, both tiers and memory are unchanged,
    nothing is released and nothing is stored to the caller.  A removal
    that did have an effect removed exactly the head entry, which is then
    no longer pending and was either given back to its allocator or
    pushed on a tier. *)
Theorem NtRemoveIoCompletion_failure_has_no_effect
  c handle tp t o w St w' :
  world_inv w ->
  NtRemoveIoCompletion c handle tp t o w = Some (St, w') ->
  (St <> STATUS_SUCCESS ->
   EntryListHead (Queue w') = EntryListHead (Queue w) /\
   LookasideP w' = LookasideP w /\ LookasideL w' = LookasideL w /\
   Memory w' = Memory w /\
   exists evs, Trace w' = Trace w ++ evs /\
     Forall (fun ev => ev = EvObReferenceObjectByHandle \/
                       ev = EvObDereferenceObject) evs) /\
  (EntryListHead (Queue w') <> EntryListHead (Queue w) ->
   St = STATUS_SUCCESS /\
   exists e, EntryListHead (Queue w) = e :: EntryListHead (Queue w') /\
     (e ∉ EntryListHead (Queue w')) /\
     (Memory w' !! e = None \/
      e ∈ ListHead (LookasideP w') ++ ListHead (LookasideL w'))).
Proof.
  intros Hinv Hrun.
  destruct (NtRemoveIoCompletion_effect c handle tp t o w St w' Hinv Hrun)
    as (evs & Htr & [(He & HP & HL & Hm & Hev) | (Hst & e & He & Hn & _ & Hfree)]).
  - split.
    + intros _. repeat split; try done. by exists evs.
    + intros Hne. done.
  - split.
    + intros Hne. done.
    + intros _. split; [done|]. by exists e.
Qed.

Lemma NtRemoveIoCompletion_failure_has_no_effect_witness :
  exists w',
    NtRemoveIoCompletion kernel_caller STATUS_INVALID_HANDLE false 1%nat
      WaitTimeout world_after_post = Some (STATUS_INVALID_HANDLE, w') /\
    EntryListHead (Queue w') = [0x80001000] /\
    Memory w' = Memory world_after_post.
Proof.
  assert (Hinv : world_inv world_after_post).
  { apply (IoSetIoCompletion_preserves 7 8 0 512 true (PoolBlock 0x80001000)
             idle_world world_inv_idle).
    split; [unfold kernel_address; lia|reflexivity]. }
  eexists. split; [reflexivity|].
  destruct (NtRemoveIoCompletion_failure_has_no_effect kernel_caller
              STATUS_INVALID_HANDLE false 1%nat WaitTimeout world_after_post
              STATUS_INVALID_HANDLE _ Hinv eq_refl) as [Hno _].
  destruct Hno as (He & _ & _ & Hm & _); [discriminate|].
  split; [exact He|exact Hm].
Defined.

(** ** Pending entries keep their fields *)

Lemma IoSetIoCompletion_keeps_pending Key Apc St Info Quota pool w e :
  world_inv w -> pool_fresh w pool ->
  e ∈ EntryListHead (Queue w) ->
  Memory (IoSetIoCompletion Key Apc St Info Quota pool w).2 !! e
    = Memory w !! e.
Proof.
  intros Hinv Hfresh Hin.
  pose proof (IoSetIoCompletion_preserves Key Apc St Info Quota pool w
                Hinv Hfresh) as Hinv1.
  pose proof (IoSetIoCompletion_outcome Key Apc St Info Quota pool w
                (world_inv_lookasides w Hinv)) as Hout.
  destruct (tiered_allocation Quota pool w) as [[p ty] evs].
  destruct (IoSetIoCompletion Key Apc St Info Quota pool w) as [Status w1].
  simpl in *. destruct Hout as (_ & Hnull & Hok).
  destruct (decide (p = NULL)) as [Hp|Hp].
  - destruct (Hnull Hp) as (_ & -> & _). done.
  - destruct (Hok Hp) as (_ & Hmem & Hq & _). rewrite Hmem.
    destruct Hinv as [_ Hwait].
    destruct (KeInsertQueue_no_waiters (Queue w) p Hwait) as [He _].
    destruct Hinv1 as [(Hnd & _) _]. rewrite Hq, He in Hnd.
    apply NoDup_app in Hnd as (_ & _ & Hnd).
    apply NoDup_app in Hnd as (_ & _ & Hnd).
    apply NoDup_app in Hnd as (_ & Hdis & _).
    apply lookup_insert_ne. intros <-. apply (Hdis p Hin). left.
Qed.

Lemma NtQueryIoCompletion_memory c handle cls len rl w St w' :
  NtQueryIoCompletion c handle cls len rl w = Some (St, w') ->
  Memory w' = Memory w /\ Queue w' = Queue w.
Proof.
  intros Hq. by apply NtQueryIoCompletion_some in Hq as (evs & -> & _).
Qed.

(** X10: no call changes an entry that is pending before and after it.
    In a state that satisfies the invariant, whatever call is made (a
    post, a removal, a query, a request completion, the delete routine),
    the object at the address of an entry that is still pending afterwards
    is the object that was there before: a post never installs its fields
    in a packet that is queued, and a removal releases the entry it
    removed and no other. *)
Theorem pending_entries_keep_their_fields w w' (e : PVOID) :
  world_inv w -> step w w' ->
  e ∈ EntryListHead (Queue w) -> e ∈ EntryListHead (Queue w') ->
  Memory w' !! e = Memory w !! e.
Proof.
  intros Hinv Hstep Hin Hin'. destruct Hstep.
  - by apply IoSetIoCompletion_keeps_pending.
  - unfold NtSetIoCompletion. destruct (NT_SUCCESS handle); [|done].
    pose proof (IoSetIoCompletion_keeps_pending Key Apc St Info true pool
                  (emit EvObReferenceObjectByHandle w) e) as Hkeep.
    destruct (IoSetIoCompletion _ _ _ _ _ _ _) as [Status w1]. simpl in *.
    apply Hkeep; [by apply world_inv_emit|by destruct pool|done].
  - match goal with
    | Hrem : NtRemoveIoCompletion _ _ _ _ _ _ = Some _ |- _ =>
        destruct (NtRemoveIoCompletion_effect _ _ _ _ _ _ _ _ Hinv Hrem)
          as (evs & _ & [(_ & _ & _ & -> & _)
                         | (_ & e0 & _ & Hn & [-> | ->] & _)])
    end; [done|done|].
    apply lookup_delete_ne. intros <-. done.
  - match goal with
    | Hq : NtQueryIoCompletion _ _ _ _ _ _ = Some _ |- _ =>
        by rewrite (proj1 (NtQueryIoCompletion_memory _ _ _ _ _ _ _ _ Hq))
    end.
  - match goal with
    | Hdel : IopDeleteIoCompletion _ = Some _ |- _ =>
        destruct (IopDeleteIoCompletion_preserves w Hinv)
          as (w1 & Hdel1 & _ & Hempty);
        rewrite Hdel in Hdel1; injection Hdel1 as <-
    end.
    rewrite Hempty in Hin'. by apply not_elem_of_nil in Hin'.
  - simpl. apply lookup_insert_ne. intros <-.
    destruct Hinv as [(_ & Hlive & _) _].
    destruct (Hlive p) as (_ & obj & Hm & _).
    + rewrite !elem_of_app. auto.
    + match goal with Hnone : Memory w !! p = None |- _ =>
        rewrite Hnone in Hm end. discriminate Hm.
Qed.

Lemma world_inv_after_post : world_inv world_after_post.
Proof.
  apply (IoSetIoCompletion_preserves 7 8 0 512 true (PoolBlock 0x80001000)
           idle_world world_inv_idle).
  split; [unfold kernel_address; lia|reflexivity].
Qed.

Lemma pending_entries_keep_their_fields_witness :
  Memory (IoSetIoCompletion 1 2 0 3 false (PoolBlock 0x80002000)
            world_after_post).2 !! 0x80001000
  = Memory world_after_post !! 0x80001000.
Proof.
  apply (pending_entries_keep_their_fields world_after_post _ 0x80001000
           world_inv_after_post).
  - apply (step_IoSetIoCompletion 1 2 0 3 false (PoolBlock 0x80002000)).
    split; [unfold kernel_address; lia|reflexivity].
  - simpl. left.
  - simpl. left.
Defined.

(** ** What a post through a handle changes *)

(** X11: NtSetIoCompletion queues an entry exactly when it returns
    STATUS_SUCCESS.  When the handle does not refer to a port the status
    of the reference is returned and the pool is not touched at all; when
    no packet can be had STATUS_INSUFFICIENT_RESOURCES is returned; in
    both cases the pending entries and memory are as before.  On success
    exactly one entry is appended, and it holds the fields posted. *)
Theorem NtSetIoCompletion_queues_iff_success
  handle Key Apc St Info pool w :
  world_inv w -> pool_fresh w pool ->
  let r := NtSetIoCompletion handle Key Apc St Info pool w in
  (NT_SUCCESS handle = false ->
   r = (handle, emit EvObReferenceObjectByHandle w)) /\
  (r.1 <> STATUS_SUCCESS ->
   NT_SUCCESS r.1 = false /\
   EntryListHead (Queue r.2) = EntryListHead (Queue w) /\
   Memory r.2 = Memory w) /\
  (r.1 = STATUS_SUCCESS ->
   exists p ty,
     kernel_address p /\
     EntryListHead (Queue r.2) = EntryListHead (Queue w) ++ [p] /\
     Memory r.2 =
       <[p := ObjMini {| PacketType := ty; KeyContext := Key;
                         ApcContext := Apc; IoStatus := St;
                         IoStatusInformation := Info |}]> (Memory w)).
Proof.
  intros Hinv Hfresh r. subst r. unfold NtSetIoCompletion.
  destruct (NT_SUCCESS handle) eqn:Hh.
  2:{ split; [done|]. simpl. split; [done|].
      intros ->. discriminate Hh. }
  split; [done|].
  assert (Hinv1 : world_inv (emit EvObReferenceObjectByHandle w))
    by (by apply world_inv_emit).
  assert (Hfresh1 : pool_fresh (emit EvObReferenceObjectByHandle w) pool)
    by (by destruct pool).
  pose proof (IoSetIoCompletion_outcome Key Apc St Info true pool _
                (world_inv_lookasides _ Hinv1)) as Hout.
  pose proof (successful_post Key Apc St Info true pool
                (emit EvObReferenceObjectByHandle w)) as Hsucc.
  destruct (tiered_allocation true pool _) as [[p ty] evs].
  destruct (IoSetIoCompletion Key Apc St Info true pool _) as [Status w1].
  simpl. destruct Hout as (_ & Hnull & Hok).
  destruct (decide (p = NULL)) as [Hp|Hp].
  - destruct (Hnull Hp) as (-> & Hm & Hq & _). split.
    + intros _. rewrite Hm, Hq. done.
    + intros Hst. discriminate Hst.
  - destruct (Hok Hp) as (-> & _). split; [done|]. intros _.
    destruct (Hsucc w1 Hinv1 Hfresh1 eq_refl)
      as (p' & ty' & Hk & _ & _ & _ & He & Hm).
    exists p', ty'. done.
Qed.

Lemma NtSetIoCompletion_queues_iff_success_witness :
  NtSetIoCompletion STATUS_INVALID_HANDLE 1 2 0 3 PoolExhausted
    world_after_post
  = (STATUS_INVALID_HANDLE,
     emit EvObReferenceObjectByHandle world_after_post).
Proof.
  destruct (NtSetIoCompletion_queues_iff_success STATUS_INVALID_HANDLE 1 2 0 3
              PoolExhausted world_after_post world_inv_after_post I)
    as (H & _).
  exact (H eq_refl).
Defined.

(** ** The concurrency limit *)

Lemma KeRemoveQueue_arrive_waits q t q1 :
  KeRemoveQueue_arrive q t = (None, q1) ->
  q1 = {| EntryListHead := EntryListHead q; MaximumCount := MaximumCount q;
          ActiveThreads := remove_thread t (ActiveThreads q);
          WaitListHead := WaitListHead q ++ [t]; Handed := Handed q |}.
Proof.
  unfold KeRemoveQueue_arrive. destruct (EntryListHead q) as [|e rest].
  - by intros [= <-].
  - destruct (Nat.ltb _ _); [discriminate|]. by intros [= <-].
Qed.


(** The service run in one step is its two phases. *)
Lemma NtRemoveIoCompletion_phases c handle Timeout t o w :
  NtRemoveIoCompletion c handle (ARGUMENT_PRESENT Timeout) t o w =
    match NtRemoveIoCompletion_enter c handle Timeout t w with
    | Some (RemoveReturned Status, w') => Some (Status, w')
    | Some (RemoveBlocked, w') =>
        NtRemoveIoCompletion_return c (wait_status o)
          (set_Queue (KeRemoveQueue_abandon (Queue w') t) w')
    | None => None
    end.
Proof.
  unfold NtRemoveIoCompletion, NtRemoveIoCompletion_enter, KeRemoveQueue,
    NtRemoveIoCompletion_return.
  destruct (probe_all _ _) as [code|].
  { unfold except_system. by destruct (ExSystemExceptionFilter _). }
  destruct (NT_SUCCESS handle); [|done].
  destruct (KeRemoveQueue_arrive _ t) as [[Entry|] q].
  - destruct (decide _); [done|].
    destruct (NtRemoveIoCompletion_capture _ _) as [[[[Apc Key] Iosb] w1]|];
      cbn [mbind option_bind]; [|done].
    by destruct (store_all _ _ _).
  - destruct (decide _) as [_|Hno]; [done|].
    exfalso. apply Hno. destruct o; auto.
Qed.

Lemma NtRemoveIoCompletion_resume_ended c handle Timeout t o w w' :
  NtRemoveIoCompletion_enter c handle Timeout t w = Some (RemoveBlocked, w') ->
  wait_end_possible Timeout (WaitEnded o) = true ->
  NtRemoveIoCompletion_resume c Timeout t (WaitEnded o) w' =
    NtRemoveIoCompletion c handle (ARGUMENT_PRESENT Timeout) t o w.
Proof.
  intros Henter Hposs. rewrite NtRemoveIoCompletion_phases, Henter.
  unfold NtRemoveIoCompletion_resume, KeRemoveQueue_resume. rewrite Hposs.
  assert (Hin : t ∈ WaitListHead (Queue w')).
  { revert Henter. unfold NtRemoveIoCompletion_enter.
    destruct (probe_all _ _) as [code|].
    { unfold except_system. by destruct (ExSystemExceptionFilter _). }
    destruct (NT_SUCCESS handle); [|done].
    destruct (KeRemoveQueue_arrive _ t) as [[Entry|] q] eqn:Ha.
    - by destruct (NtRemoveIoCompletion_return _ _ _) as [[? ?]|].
    - intros [= <-]. apply KeRemoveQueue_arrive_waits in Ha as ->.
      simpl. apply elem_of_app. right. left. }
  destruct (decide _); [|done]. done.
Qed.























(** The release of the waiter on the port with limit 1: thread 5 has
    called a third time and blocked, a packet has been posted (it is the
    packet freed last, reused from the per-processor tier), and the call of
    thread 9 returns STATUS_SUCCESS. *)
Lemma ceiling_waiter_released_by_post :
  WaitListHead (Queue world_after_third_call_and_post) = [5%nat] /\
  ActiveThreads (Queue world_after_third_call_and_post) = [9%nat] /\
  Handed (Queue world_after_third_call_and_post) = [(9%nat, 0x80002000)] /\
  fst <$> NtRemoveIoCompletion_resume kernel_caller None 9%nat WaitSatisfied
            world_after_third_call_and_post = Some STATUS_SUCCESS.
Proof. vm_compute. repeat split. Qed.
